(** * The media resolution pipeline of the downloader bot

    A shallow embedding of [src/app/parsers/youtube.py] (the YouTube
    parser variant with its quality selection) and of the handlers of
    [src/main.py] (delivery with the resolution cache, link extraction,
    the viewing history), followed by the properties the specification
    states about them.

    Python integers are [Z]; strings are [string]; dictionaries are
    [gmap]; a call that may raise returns a [result]. *)

From Stdlib Require Import ZArith Ascii String.
From stdpp Require Import base option list gmap strings sorting.

Local Open Scope Z_scope.
Local Open Scope string_scope.

(** ** Exceptions and fallible computations *)

(** The subclasses of [pytube.exceptions.PytubeError] the parser can meet. *)
Inductive pytube_error :=
| VideoUnavailable
| VideoPrivate
| VideoRegionBlocked
| AgeRestrictedError
| RegexMatchError
| ExtractError.

Inductive exn :=
| IndexError
| AttributeError
| PytubeError (k : pytube_error)
| BadRequest (msg : string)
| NetworkError (msg : string).

Inductive result (A : Type) :=
| Ok (a : A)
| Raise (e : exn).
Arguments Ok {A} a.
Arguments Raise {A} e.

#[global] Instance result_ret : MRet result := fun _ a => Ok a.
#[global] Instance result_bind : MBind result := fun _ _ f r =>
  match r with
  | Ok a => f a
  | Raise e => Raise e
  end.

(** [except PytubeError] catches the class and all its subclasses. *)
Definition is_PytubeError (e : exn) : bool :=
  match e with
  | PytubeError _ => true
  | _ => false
  end.

Definition is_IndexError (e : exn) : bool :=
  match e with
  | IndexError => true
  | _ => false
  end.

Definition is_BadRequest (e : exn) : bool :=
  match e with
  | BadRequest _ => true
  | _ => false
  end.

(** [try: body except <caught> as e: handler e] *)
Definition try_except {A} (body : result A) (caught : exn → bool)
    (handler : exn → result A) : result A :=
  match body with
  | Ok a => Ok a
  | Raise e => if caught e then handler e else Raise e
  end.

(** ** Regular expressions of the parser

    The fragment of Python's [re] syntax that [REG_EXPS] uses, with a
    backtracking matcher in continuation-passing style: greedy
    quantifiers, leftmost alternative first. *)
Module Re.

Inductive regex :=
| Lit (s : string)
| AnyChar
| Plus (cls : ascii → bool)
| Opt (r : regex)
| Alt (r1 r2 : regex)
| Cat (r1 r2 : regex)
| Named (name : string) (r : regex).

(** A match object: the text matched (group 0) and the named groups. *)
Record Match := {
  m_group0 : string;
  m_groups : list (string * string)
}.

Fixpoint strip_prefix (p s : string) : option string :=
  match p, s with
  | EmptyString, _ => Some s
  | String a p', String b s' =>
      if decide (a = b) then strip_prefix p' s' else None
  | String _ _, EmptyString => None
  end.

(** [cls+]: one character of the class, then as many more as the rest of
    the pattern allows, longest first. *)
Fixpoint plus_k {X} (cls : ascii → bool) (s : string)
    (k : string → option X) : option X :=
  match s with
  | String c s' =>
      if cls c then
        match plus_k cls s' k with
        | Some x => Some x
        | None => k s'
        end
      else None
  | EmptyString => None
  end.

(** The part of [s] consumed when [rest] is what remains of it. *)
Definition consumed (s rest : string) : string :=
  substring 0 (String.length s - String.length rest) s.

Definition newline : ascii := ascii_of_nat 10.

Fixpoint run {X} (r : regex) (s : string) (g : list (string * string))
    (k : string → list (string * string) → option X) : option X :=
  match r with
  | Lit p =>
      match strip_prefix p s with
      | Some rest => k rest g
      | None => None
      end
  | AnyChar =>
      match s with
      | String c rest => if decide (c = newline) then None else k rest g
      | EmptyString => None
      end
  | Plus cls => plus_k cls s (fun rest => k rest g)
  | Opt r1 =>
      match run r1 s g k with
      | Some x => Some x
      | None => k s g
      end
  | Alt r1 r2 =>
      match run r1 s g k with
      | Some x => Some x
      | None => run r2 s g k
      end
  | Cat r1 r2 => run r1 s g (fun rest g' => run r2 rest g' k)
  | Named name r1 =>
      run r1 s g (fun rest g' => k rest ((name, consumed s rest) :: g'))
  end.

(** [pattern.match(s)]: a match anchored at the first character. *)
Definition re_match (r : regex) (s : string) : option Match :=
  run r s [] (fun rest g =>
    Some {| m_group0 := consumed s rest; m_groups := g |}).

(** [match.group(name)]: [IndexError] when the pattern has no such group. *)
Definition group (m : Match) (name : string) : result string :=
  match list_find (fun p => fst p = name) (m_groups m) with
  | Some (_, p) => Ok (snd p)
  | None => Raise IndexError
  end.

(** [\w] on the ASCII range, and the class [[\w-]].  The patterns are
    [str] patterns, for which [\w] also takes the word characters beyond
    the ASCII range; a string here is a sequence of 8-bit characters, so
    the matcher stands for the patterns on ASCII links, and the
    statements about what is matched are made of such links. *)
Definition word_char (c : ascii) : bool :=
  let n := nat_of_ascii c in
  ((48 <=? n) && (n <=? 57) || (65 <=? n) && (n <=? 90)
   || (97 <=? n) && (n <=? 122) || (n =? 95))%nat.

Definition word_or_dash (c : ascii) : bool :=
  word_char c || (nat_of_ascii c =? 45)%nat.

End Re.

(** ** pytube

    The part of the [pytube] library the parser calls.  A stream's
    [resolution] is the number its resolution string spells (720 for
    720p), which is the key [order_by] sorts on; [None] for a stream
    that has none, which [order_by] leaves out.  [filesize] is the size
    the library reports for the stream; a stream whose size cannot be
    fetched is outside this model. *)
Module Pytube.

Record Stream := {
  url : string;
  filesize : Z;
  resolution : option nat;
  mime_type : string;
  type : string;
  subtype : string;
  is_progressive : bool
}.

(** A [pytube.YouTube] object: its properties are fetched on access and
    may raise. *)
Record YouTube := {
  streams : result (list Stream);
  author : result string;
  title : result string;
  thumbnail_url : result string
}.

(** [StreamQuery.filter(type=.., progressive=True, file_extension=..)] *)
Definition filter_streams (ty ext : string) (q : list Stream) : list Stream :=
  filter (fun s => type s = ty ∧ is_progressive s = true ∧ subtype s = ext) q.

(** [StreamQuery.filter(progressive=True)] *)
Definition filter_progressive (q : list Stream) : list Stream :=
  filter (fun s => is_progressive s = true) q.

Definition res_key (s : Stream) : nat := default 0%nat (resolution s).

(** Python's [sorted] is stable and ascending: an element goes before the
    first one whose key is not smaller. *)
Fixpoint insert_by_key (x : Stream) (l : list Stream) : list Stream :=
  match l with
  | [] => [x]
  | y :: l' =>
      if (res_key x <=? res_key y)%nat then x :: y :: l'
      else y :: insert_by_key x l'
  end.

Fixpoint sorted_by_key (l : list Stream) : list Stream :=
  match l with
  | [] => []
  | x :: l' => insert_by_key x (sorted_by_key l')
  end.

(** The order [sorted] leaves the streams in. *)
Definition key_le (a b : Stream) : Prop := (res_key a <= res_key b)%nat.

(** [StreamQuery.order_by("resolution")] *)
Definition order_by_resolution (q : list Stream) : list Stream :=
  sorted_by_key (filter (fun s => is_Some (resolution s)) q).

(** [StreamQuery.get_highest_resolution()], that is
    [filter(progressive=True).order_by("resolution").last()]. *)
Definition get_highest_resolution (q : list Stream) : option Stream :=
  last (order_by_resolution (filter_progressive q)).

End Pytube.

(** ** The media model *)
Module Medias.

Inductive ParserType :=
| YOUTUBE
| OtherProvider (name : string).

(** Modelled from the spec: the [Video] value type of [app.models.medias]
    (its declaration is not part of the sources at hand): the common
    Media fields, the delivery url, the optional full-quality url, the
    mime type and the optional upload and dimensions.  The fields the
    YouTube parser does not pass keep their default, [None]. *)
Record Video := {
  author : option string;
  caption : option string;
  thumbnail_url : option string;
  type : ParserType;
  url : string;
  original_url : string;
  max_quality_url : option string;
  mime_type : string;
  file_input : option string;
  video_width : option Z;
  video_height : option Z;
  video_duration : option Z;
  language_emoji : option string
}.

(** A member of a media group as sent to the chat.  The class of the
    items is declared outside the files embedded here; [im_frozen] says
    whether the object refuses the assignment of an attribute, as the
    frozen objects of the chat library do. *)
Record InputMedia := {
  im_media : string;
  im_caption : option string;
  im_frozen : bool
}.

(** Modelled from the spec: the [MediaGroup] value type of
    [app.models.medias]: an ordered sequence of items and one caption
    shared by all of them. *)
Record MediaGroup := {
  mg_original_url : string;
  mg_caption : option string;
  input_medias : list InputMedia
}.

(** The values a parser returns: a [Video], a [MediaGroup], or a [Media]
    of neither class. *)
Inductive Media :=
| MVideo (v : Video)
| MGroup (g : MediaGroup)
| MPlain (original : string).

#[global] Instance ParserType_eq_dec : EqDecision ParserType.
Proof. solve_decision. Defined.
#[global] Instance Video_eq_dec : EqDecision Video.
Proof. solve_decision. Defined.

End Medias.

(** ** The YouTube parser: [src/app/parsers/youtube.py] *)
Module Youtube.
Import Re Pytube.

(** [REG_EXPS]: the watch and youtu.be shapes, then the shorts shape. *)
Definition scheme : regex :=
  Opt (Cat (Lit "http") (Cat (Opt (Lit "s")) (Lit "://"))).

Definition REG_EXPS : list regex :=
  [ Cat scheme
      (Cat (Alt (Cat (Opt (Lit "www.")) (Lit "youtube.com/watch?v="))
                (Cat (Lit "youtu") (Cat AnyChar (Lit "be/"))))
           (Named "id" (Plus word_or_dash)));
    Cat scheme
      (Cat (Opt (Lit "www."))
           (Cat (Lit "youtube.com/shorts/") (Named "id" (Plus word_or_dash)))) ].

(** Modelled from the spec: the matching step of the base parser
    ([app.parsers.base], not part of the sources at hand): the link is
    tested against the url shapes of the variant in their order and the
    first match is handed to [_parse]. *)
Fixpoint first_match (rs : list regex) (link : string) : option Match :=
  match rs with
  | [] => None
  | r :: rs' =>
      match re_match r link with
      | Some m => Some m
      | None => first_match rs' link
      end
  end.

Definition match_link (link : string) : option Match :=
  first_match REG_EXPS link.

Section Parser.

(** [constants.TG_FILE_LIMIT], the upload ceiling in bytes. *)
Variable TG_FILE_LIMIT : Z.

(** [pytube.YouTube(url)]: what the library answers for a url. *)
Variable pytube_YouTube : string → result YouTube.

Definition canonical_url (yt_id : string) : string :=
  "https://youtube.com/watch?v=" +:+ yt_id.

(** The body of the loop over the streams, on the pair
    [(max_fs, stream)]. *)
Definition select_step (acc : Z * Stream) (st : Stream) : Z * Stream :=
  let file_size := filesize st in
  if bool_decide (TG_FILE_LIMIT >= file_size ∧ file_size > acc.1)
  then (file_size, st)
  else acc.

(** The loop, started from [max_fs = 0] and the highest-resolution
    stream. *)
Definition select_stream (streams : list Stream) (best : Stream) : Stream :=
  (foldl select_step (0, best) streams).2.

(** The streams the loop runs over. *)
Definition candidates (q : list Stream) : list Stream :=
  order_by_resolution (filter_streams "video" "mp4" q).

(** [x.url] where [x] may be [None]. *)
Definition attr_of {A} (o : option A) : result A :=
  match o with
  | Some a => Ok a
  | None => Raise AttributeError
  end.

Definition _parse (m : Match) : result (list Medias.Media) :=
  match group m "id" with
  | Raise e => if is_IndexError e then Ok [] else Raise e
  | Ok yt_id =>
      let original_url := canonical_url yt_id in
      yt ← pytube_YouTube original_url;
      q ← streams yt;
      let streams := candidates q in
      best ← attr_of (get_highest_resolution q);
      let max_quality_url := url best in
      let stream := select_stream streams best in
      try_except
        (a ← author yt;
         c ← title yt;
         t ← thumbnail_url yt;
         mret [Medias.MVideo
           {| Medias.author := Some a;
              Medias.caption := Some c;
              Medias.thumbnail_url := Some t;
              Medias.type := Medias.YOUTUBE;
              Medias.url := url stream;
              Medias.original_url := original_url;
              Medias.max_quality_url := Some max_quality_url;
              Medias.mime_type := mime_type stream;
              Medias.file_input := None;
              Medias.video_width := None;
              Medias.video_height := None;
              Medias.video_duration := None;
              Medias.language_emoji := None |}])
        is_PytubeError
        (fun _ => Ok [])
  end.

(** A stream the delivery channel can take: its size is known and within
    the ceiling. *)
Definition deliverable (c : Stream) : Prop :=
  0 < filesize c ∧ filesize c <= TG_FILE_LIMIT.

(** The stream [_parse] delivers when the video has the streams [q]. *)
Definition delivery_stream (q : list Stream) : option Stream :=
  select_stream (candidates q) <$> get_highest_resolution q.

(** [_parse] on the match [m], with pytube reporting the streams [q] for
    the video, returns the single Video [v]. *)
Definition produces (m : Match) (q : list Stream) (v : Medias.Video) : Prop :=
  ∃ yt_id yt,
    group m "id" = Ok yt_id
    ∧ pytube_YouTube (canonical_url yt_id) = Ok yt
    ∧ streams yt = Ok q
    ∧ _parse m = Ok [Medias.MVideo v].

(** Statements of the specification that the theorems below compare with
    the code. *)

(** Among deliverable streams of the same, largest size the delivery
    stream has the highest resolution. *)
Definition ties_prefer_higher_rank : Prop :=
  ∀ q s c,
    delivery_stream q = Some s →
    c ∈ candidates q → deliverable c →
    (∀ d, d ∈ candidates q → deliverable d → filesize d <= filesize c) →
    (res_key c <= res_key s)%nat.

(** The full-quality url is present only when it differs from the
    delivery url. *)
Definition full_quality_only_when_different : Prop :=
  ∀ m q v u,
    produces m q v → Medias.max_quality_url v = Some u → u ≠ Medias.url v.

(** The original url of the result is the link as the user wrote it. *)
Definition original_url_is_link : Prop :=
  ∀ link m q v,
    match_link link = Some m → produces m q v → Medias.original_url v = link.

End Parser.

(** ** Sample videos *)

Definition mp4 (u : string) (size : Z) (res : nat) : Stream :=
  {| url := u; filesize := size; resolution := Some res;
     mime_type := "video/mp4"; type := "video"; subtype := "mp4";
     is_progressive := true |}.

Definition video_of (q : list Stream) : YouTube :=
  {| streams := Ok q; author := Ok "author"; title := Ok "title";
     thumbnail_url := Ok "https://i.ytimg.com/vi/TCrP1SE2DkY/0.jpg" |}.

(** The example of the specification: 25 MB, 15 MB and 8 MB streams. *)
Definition three_sizes : list Stream :=
  [ mp4 "https://cdn/720" 25000000 720; mp4 "https://cdn/360" 15000000 360;
    mp4 "https://cdn/144" 8000000 144 ].

(** Two streams of one size at two resolutions. *)
Definition same_size : list Stream :=
  [ mp4 "https://cdn/360" 10000000 360; mp4 "https://cdn/720" 10000000 720 ].

(** Every stream above the ceiling. *)
Definition all_oversize : list Stream :=
  [ mp4 "https://cdn/360" 30000000 360; mp4 "https://cdn/720" 90000000 720 ].

(** One stream, within the ceiling. *)
Definition one_stream : list Stream := [ mp4 "https://cdn/720" 9000000 720 ].

(** A video that is removed, private or blocked in the region: pytube
    raises the matching error when the streams are asked for. *)
Definition unavailable_video (k : pytube_error) : YouTube :=
  {| streams := Raise (PytubeError k);
     author := Ok "author"; title := Ok "title";
     thumbnail_url := Ok "https://i.ytimg.com/vi/TCrP1SE2DkY/0.jpg" |}.

Definition short_link : string := "https://youtu.be/TCrP1SE2DkY".

(** The Video [_parse] builds for [short_link] from [video_of q], given
    the urls of the delivery stream and of the best stream. *)
Definition sample_video (delivery best : string) : Medias.Video :=
  {| Medias.author := Some "author";
     Medias.caption := Some "title";
     Medias.thumbnail_url := Some "https://i.ytimg.com/vi/TCrP1SE2DkY/0.jpg";
     Medias.type := Medias.YOUTUBE;
     Medias.url := delivery;
     Medias.original_url := "https://youtube.com/watch?v=TCrP1SE2DkY";
     Medias.max_quality_url := Some best;
     Medias.mime_type := "video/mp4";
     Medias.file_input := None;
     Medias.video_width := None;
     Medias.video_height := None;
     Medias.video_duration := None;
     Medias.language_emoji := None |}.

Definition short_link_match : Match :=
  {| m_group0 := short_link; m_groups := [("id", "TCrP1SE2DkY")] |}.

(** A ceiling of 20 MB. *)
Definition twenty_MB : Z := 20000000.

End Youtube.

(** ** The handlers: [src/main.py] *)
Module Main.
Import Medias.

Inductive MessageEntityType :=
| URL
| TEXT_LINK
| MENTION
| HASHTAG
| BOT_COMMAND
| BOLD
| OtherEntity (name : string).

(** A message entity: a span of the text, in characters. *)
Record MessageEntity := {
  e_type : MessageEntityType;
  offset : nat;
  length : nat
}.

(** The video handle the platform issues for a delivered video; the
    cache keeps its dictionary form, which is never empty. *)
Record TelegramVideo := {
  file_id : string;
  file_unique_id : string;
  tv_width : Z;
  tv_height : Z;
  tv_duration : Z
}.

Record Message := {
  text : string;
  entities : list MessageEntity;
  video : option TelegramVideo
}.

Inductive ChatType :=
| PRIVATE
| GROUP
| SUPERGROUP
| CHANNEL.

#[global] Instance ChatType_eq_dec : EqDecision ChatType.
Proof. solve_decision. Defined.

(** An update.  [result_id] is [update.chosen_inline_result.result_id],
    read by the handler of chosen inline results only. *)
Record Update := {
  effective_message : option Message;
  message : option Message;
  effective_chat : option ChatType;
  result_id : string
}.

(** The [video] argument of [reply_video]:
    [tg_video or media.file_input or media.url]. *)
Inductive VideoArg :=
| ByHandle (h : TelegramVideo)
| ByUpload (f : string)
| ByUrl (u : string).

(** The calls a handler makes to its collaborators, in the order made. *)
Inductive Call :=
| CallParse (links : list string)
| CallReplyVideo (arg : VideoArg) (caption : string)
| CallReplyText (body : string)
| CallReplyMediaGroup (items : list InputMedia).

(** The collaborators of the handlers: translation and formatting of
    display strings, the chat platform and the parser registry. *)
Record Env := {
  gettext : string → string;
  str_format : string → list (string * string) → string;
  str_strip : string → string;
  real_caption : Video → string;
  a : string → string → string;
  reply_video :
    Message → VideoArg → string → option Z → option Z → option Z →
    result Message;
  reply_text : Message → string → result Message;
  reply_media_group : Message → list InputMedia → result (list Message);
  Parser_parse : list string → result (list Media);
  is_history_enabled : Update → bool
}.

(** The context of a user ([ctx]) and the calls made so far. *)
Record State := {
  tg_video_cache : gmap string TelegramVideo;
  temp_history : gmap string Video;
  history : list Video;
  calls : list Call
}.

Definition set_cache (c : gmap string TelegramVideo) (st : State) : State :=
  {| tg_video_cache := c; temp_history := temp_history st;
     history := history st; calls := calls st |}.

Definition set_temp_history (t : gmap string Video) (st : State) : State :=
  {| tg_video_cache := tg_video_cache st; temp_history := t;
     history := history st; calls := calls st |}.

Definition set_history (h : list Video) (st : State) : State :=
  {| tg_video_cache := tg_video_cache st; temp_history := temp_history st;
     history := h; calls := calls st |}.

Definition add_call (c : Call) (st : State) : State :=
  {| tg_video_cache := tg_video_cache st; temp_history := temp_history st;
     history := history st; calls := calls st ++ [c] |}.

(** A handler step: it may raise, and what it did to the state before
    raising stays done. *)
Definition M (A : Type) : Type := State → result A * State.

#[global] Instance M_ret : MRet M := fun _ a st => (Ok a, st).
#[global] Instance M_bind : MBind M := fun _ _ f c st =>
  match c st with
  | (Ok a, st') => f a st'
  | (Raise e, st') => (Raise e, st')
  end.

Definition raise {A} (e : exn) : M A := fun st => (Raise e, st).

Definition lift {A} (r : result A) : M A := fun st => (r, st).

Definition get_state : M State := fun st => (Ok st, st).

Definition modify (f : State → State) : M unit := fun st => (Ok tt, f st).

Definition try_exceptM {A} (body : M A) (caught : exn → bool)
    (handler : exn → M A) : M A := fun st =>
  match body st with
  | (Ok a, st') => (Ok a, st')
  | (Raise e, st') => if caught e then handler e st' else (Raise e, st')
  end.

(** Attribute access on a value that may be [None]. *)
Definition attr {A} (o : option A) : M A :=
  match o with
  | Some a => mret a
  | None => raise AttributeError
  end.

Definition dquote : string := String (ascii_of_nat 34) "".
Definition nl : string := String (ascii_of_nat 10) "".

Definition oversize_note : string :=
  nl +:+ nl +:+ nl +:+ "<i>Original video is larger than <b>20 MB</b>,"
  +:+ " and bot can't send it.</i> "
  +:+ "<a href=" +:+ dquote +:+ "{url}" +:+ dquote +:+ ">"
  +:+ "This is original link</a>".

Definition send_error_note : string :=
  "Error sending video: {title}" +:+ nl +:+ nl +:+ nl
  +:+ "<a href=" +:+ dquote +:+ "{url}" +:+ dquote
  +:+ ">Direct link to video</a>".

Section Handlers.

Variable env : Env.

Definition extra_caption (media : Video) : string :=
  match max_quality_url media with
  | Some q =>
      if bool_decide (q ≠ "" ∧ q ≠ url media)
      then str_format env (gettext env oversize_note) [("url", q)]
      else ""
  | None => ""
  end.

Definition video_arg (tg_video : option TelegramVideo) (media : Video)
    : VideoArg :=
  match tg_video with
  | Some h => ByHandle h
  | None =>
      match file_input media with
      | Some f => ByUpload f
      | None => ByUrl (url media)
      end
  end.

Definition media_caption (media : Video) : string :=
  str_strip env (real_caption env media +:+ extra_caption media).

Definition _process_video (update : Update) (media : Video) : M unit :=
  let media_caption := media_caption media in
  try_exceptM
    (st ← get_state;
     let tg_video := tg_video_cache st !! original_url media in
     m ← attr (effective_message update);
     let arg := video_arg tg_video media in
     _ ← modify (add_call (CallReplyVideo arg media_caption));
     res ← lift (reply_video env m arg media_caption (video_width media)
                   (video_height media) (video_duration media));
     v ← attr (video res);
     modify (fun st =>
       set_cache (<[original_url media := v]> (tg_video_cache st)) st))
    is_BadRequest
    (fun e =>
       chat ← attr (effective_chat update);
       _ ← (if decide (chat = PRIVATE) then
              m ← attr (effective_message update);
              let body :=
                str_format env (gettext env send_error_note)
                  [("title", a env media_caption (original_url media));
                   ("url", url media)] in
              _ ← modify (add_call (CallReplyText body));
              _ ← lift (reply_text env m body);
              mret tt
            else mret tt);
       raise e).

(** The loop [for m in i_medias: m.caption = media.caption]: the
    assignment raises [AttributeError] on an item that refuses it. *)
Fixpoint set_captions (c : option string) (items : list InputMedia)
    : result (list InputMedia) :=
  match items with
  | [] => Ok []
  | m :: rest =>
      if im_frozen m then Raise AttributeError
      else
        rest' ← set_captions c rest;
        Ok ({| im_media := im_media m; im_caption := c;
               im_frozen := im_frozen m |} :: rest')
  end.

Definition _process_media_group (update : Update) (media : MediaGroup)
    : M unit :=
  i_medias ← lift (set_captions (mg_caption media) (input_medias media));
  msg ← attr (message update);
  _ ← modify (add_call (CallReplyMediaGroup i_medias));
  _ ← lift (reply_media_group env msg i_medias);
  mret tt.

Definition is_link (e : MessageEntity) : bool :=
  match e_type e with
  | URL | TEXT_LINK => true
  | _ => false
  end.

(** [text[entity.offset : entity.offset + entity.length]] *)
Definition span (txt : string) (e : MessageEntity) : string :=
  substring (offset e) (length e) txt.

(** The entities of type url or text link, in the order of the message. *)
Definition link_entities (m : Message) : list MessageEntity :=
  filter (fun e => is_link e = true) (entities m).

Definition message_links (m : option Message) : list string :=
  match m with
  | Some m => span (text m) <$> link_entities m
  | None => []
  end.

(** The loop over the parsed medias: the first [Video] or [MediaGroup]
    met ends the handler. *)
Fixpoint deliver (update : Update) (medias : list Media) : M unit :=
  match medias with
  | [] => mret tt
  | MVideo v :: _ => _process_video update v
  | MGroup g :: _ => _process_media_group update g
  | MPlain _ :: rest => deliver update rest
  end.

Definition link_parser (update : Update) : M unit :=
  let message_links := message_links (effective_message update) in
  _ ← modify (add_call (CallParse message_links));
  medias ← lift (Parser_parse env message_links);
  deliver update medias.

(** A stored video is a non-empty dictionary, so [not video] holds only
    when the result id is unknown. *)
Definition chosen_inline_query (update : Update) : M unit := fun st =>
  let video := temp_history st !! result_id update in
  let st := set_temp_history ∅ st in
  match video with
  | None => (Ok tt, st)
  | Some video =>
      if negb (is_history_enabled env update) then (Ok tt, st)
      else if decide (video ∈ history st)
           then (Ok tt, st)
           else (Ok tt, set_history (history st ++ [video]) st)
  end.

(** The answer of the platform to the [reply_video] call that
    [_process_video] makes in the state [st]. *)
Definition delivery (update : Update) (media : Video) (st : State)
    : result Message :=
  match effective_message update with
  | Some m =>
      reply_video env m
        (video_arg (tg_video_cache st !! original_url media) media)
        (media_caption media)
        (video_width media) (video_height media) (video_duration media)
  | None => Raise AttributeError
  end.

(** A media the loop of [link_parser] delivers. *)
Definition is_deliverable_media (x : Media) : bool :=
  match x with
  | MVideo _ | MGroup _ => true
  | MPlain _ => false
  end.

(** The calls that deliver a media to the chat. *)
Definition is_delivery_call (c : Call) : bool :=
  match c with
  | CallReplyVideo _ _ | CallReplyMediaGroup _ => true
  | CallParse _ | CallReplyText _ => false
  end.

(** From [st] to [st'] calls were only added, at most one of them a
    delivery. *)
Definition extends_calls (st st' : State) : Prop :=
  ∃ rest, calls st' = (calls st ++ rest)%list
    ∧ (List.length (filter (fun c => is_delivery_call c = true) rest) <= 1)%nat.


(** What the handler does with such a media. *)
Definition process (update : Update) (x : Media) : M unit :=
  match x with
  | MVideo v => _process_video update v
  | MGroup g => _process_media_group update g
  | MPlain _ => mret tt
  end.

End Handlers.

(** ** Sample updates *)

Definition sample_handle : TelegramVideo :=
  {| file_id := "BAACAgIAAxkDAAIB"; file_unique_id := "AgADBAAC";
     tv_width := 640; tv_height := 360; tv_duration := 12 |}.

Definition sent_message : Message :=
  {| text := ""; entities := []; video := Some sample_handle |}.

(** A message with a bold word, a plain url and a text link. *)
Definition sample_message : Message :=
  {| text := "see youtu.be/TCrP1SE2DkY and this";
     entities :=
       [ {| e_type := BOLD; offset := 0; length := 3 |};
         {| e_type := URL; offset := 4; length := 20 |};
         {| e_type := TEXT_LINK; offset := 29; length := 4 |} ];
     video := None |}.

Definition sample_update : Update :=
  {| effective_message := Some sample_message;
     message := Some sample_message;
     effective_chat := Some PRIVATE;
     result_id := "result-1" |}.

Definition sample_media : Video :=
  {| author := Some "author";
     caption := Some "title";
     thumbnail_url := None;
     type := YOUTUBE;
     url := "https://cdn/360";
     original_url := "https://youtube.com/watch?v=TCrP1SE2DkY";
     max_quality_url := Some "https://cdn/720";
     mime_type := "video/mp4";
     file_input := None;
     video_width := None;
     video_height := None;
     video_duration := None;
     language_emoji := None |}.

Definition other_media : Video :=
  {| author := None;
     caption := None;
     thumbnail_url := None;
     type := OtherProvider "tiktok";
     url := "https://cdn/other";
     original_url := "https://vm.tiktok.com/ZMabc/";
     max_quality_url := None;
     mime_type := "video/mp4";
     file_input := None;
     video_width := None;
     video_height := None;
     video_duration := None;
     language_emoji := None |}.

(** Collaborators for the samples: the platform accepts every video when
    [accepts] is set and answers with [BadRequest] otherwise; the
    registry resolves every batch of links to [medias]. *)
Definition sample_env (accepts : bool) (medias : list Media) : Env :=
  {| gettext := fun s => s;
     str_format := fun s _ => s;
     str_strip := fun s => s;
     real_caption := fun v => default "" (caption v);
     a := fun label _ => label;
     reply_video := fun _ _ _ _ _ _ =>
       if accepts then Ok sent_message
       else Raise (BadRequest "Wrong file identifier/HTTP URL specified");
     reply_text := fun _ _ => Ok sent_message;
     reply_media_group := fun _ _ => Ok [sent_message];
     Parser_parse := fun _ => Ok medias;
     is_history_enabled := fun _ => true |}.

Definition empty_state : State :=
  {| tg_video_cache := ∅; temp_history := ∅; history := []; calls := [] |}.

End Main.

(** ** What a pattern matches

    The words a pattern of [Re.regex] matches and the groups it captures
    on the way, most recent first: the reading of the patterns that the
    matcher [Re.run] is checked against. *)
Module ReSem.
Import Re.

Fixpoint all_chars (cls : ascii → bool) (s : string) : bool :=
  match s with
  | EmptyString => true
  | String c s' => cls c && all_chars cls s'
  end.

(** A link of ASCII characters, on which [Re.word_char] is [\w]. *)
Definition is_ascii (c : ascii) : bool := (nat_of_ascii c <? 128)%nat.

Definition ascii_only (s : string) : bool := all_chars is_ascii s.

(** Nothing of the class can be taken from the front of [rest]. *)
Definition stops (cls : ascii → bool) (rest : string) : bool :=
  match rest with
  | EmptyString => true
  | String c _ => negb (cls c)
  end.

Inductive matches : regex → string → list (string * string) → Prop :=
| m_lit p : matches (Lit p) p []
| m_any c : c ≠ newline → matches AnyChar (String c "") []
| m_plus cls w :
    w ≠ "" → all_chars cls w = true → matches (Plus cls) w []
| m_opt_some r w g : matches r w g → matches (Opt r) w g
| m_opt_none r : matches (Opt r) "" []
| m_alt_l r1 r2 w g : matches r1 w g → matches (Alt r1 r2) w g
| m_alt_r r1 r2 w g : matches r2 w g → matches (Alt r1 r2) w g
| m_cat r1 r2 w1 w2 g1 g2 :
    matches r1 w1 g1 → matches r2 w2 g2 →
    matches (Cat r1 r2) (w1 +:+ w2) (g2 ++ g1)%list
| m_named name r w g :
    matches r w g → matches (Named name r) w ((name, w) :: g).

(** The url shapes the comments of [REG_EXPS] list, without the id. *)
Definition schemes : list string := [""; "http://"; "https://"].

Definition hosts : list string :=
  [ "youtube.com/watch?v="; "www.youtube.com/watch?v="; "youtu.be/";
    "youtube.com/shorts/"; "www.youtube.com/shorts/" ].

End ReSem.

(** A call that returns. *)
Definition succeeds {A} (r : result A) : Prop := ∃ a, r = Ok a.

(** ** Failures while the Video is built *)
Module YoutubeErrors.
Import Pytube.

(** The first error met while [_parse] builds the Video, from
    [yt.author], [yt.title] or [yt.thumbnail_url], read in this order. *)
Definition building_fails (yt : YouTube) (e : exn) : Prop :=
  author yt = Raise e
  ∨ (succeeds (author yt) ∧ title yt = Raise e)
  ∨ (succeeds (author yt) ∧ succeeds (title yt)
     ∧ thumbnail_url yt = Raise e).

End YoutubeErrors.

(** ** Texts and calls of [_process_video] *)
Module MainTexts.
Import Medias Main.

(** The text sent in a private chat when the platform refuses the video. *)
Definition direct_link_text (env : Env) (media : Video) : string :=
  str_format env (gettext env send_error_note)
    [("title", a env (media_caption env media) (original_url media));
     ("url", url media)].

(** The [reply_video] call of [_process_video] in the state [st]. *)
Definition video_call (env : Env) (media : Video) (st : State) : Call :=
  CallReplyVideo
    (video_arg (tg_video_cache st !! original_url media) media)
    (media_caption env media).

(** A sent message that carries an animation and no video, and
    collaborators for which every video comes back so. *)
Definition animation_message : Message :=
  {| text := ""; entities := []; video := None |}.

Definition animation_env : Env :=
  {| gettext := gettext (sample_env true []);
     str_format := str_format (sample_env true []);
     str_strip := str_strip (sample_env true []);
     real_caption := real_caption (sample_env true []);
     a := a (sample_env true []);
     reply_video := fun _ _ _ _ _ _ => Ok animation_message;
     reply_text := reply_text (sample_env true []);
     reply_media_group := reply_media_group (sample_env true []);
     Parser_parse := Parser_parse (sample_env true []);
     is_history_enabled := is_history_enabled (sample_env true []) |}.

(** The items [_process_media_group] sends for a group. *)
Definition group_items (media : MediaGroup) : list InputMedia :=
  (fun m => {| im_media := im_media m; im_caption := mg_caption media;
               im_frozen := im_frozen m |})
    <$> input_medias media.

End MainTexts.

(** ** The inline handlers: [src/main.py], continued *)
Module Inline.
Import Medias Main.

Inductive ReportType :=
| MEDIA_NOT_FOUND
| WRONG_MEDIA.

Inductive ReportPlace :=
| INLINE
| OtherPlace (name : string).

Record Report := {
  report_type : ReportType;
  r_message : string;
  report_place : ReportPlace;
  extra_data : option string
}.

Record InlineQueryResultVideo := {
  id : string;
  video_url : string;
  r_mime_type : string;
  r_thumbnail_url : string;
  title : string;
  r_caption : string;
  description : string;
  r_video_width : option Z;
  r_video_height : option Z;
  r_video_duration : option Z
}.

(** The arguments of [update.inline_query.answer]. *)
Record Answer := {
  results : list InlineQueryResultVideo;
  is_personal : bool;
  switch_pm_text : string;
  switch_pm_parameter : string;
  cache_time : Z
}.

(** An update with an inline query: [query] is
    [update.inline_query.query]. *)
Record InlineUpdate := {
  update : Update;
  query : option string
}.

(** What the inline handler sends out, besides the calls of [Main.Call]. *)
Inductive Sent :=
| SavedReport (r : Report)
| Answered (a : Answer).

(** The further collaborators of the inline handlers: the identifiers
    [uuid.uuid4()] draws, one after the other; the attributes of a Video
    and of its type that only these handlers read; the plural form of the
    count of results; the report store and the platform. *)
Record InlineEnv := {
  env : Env;
  uuid4 : nat → string;
  type_value : ParserType → string;
  type_str : ParserType → string;
  extra_description : Video → option string;
  language : Video → option string;
  inline_caption : Video → string;
  found_text : nat → string;
  save_report : Report → result string;
  answer : Answer → result bool
}.

(** The context, the number of identifiers drawn so far and what was
    sent out so far. *)
Record IState := {
  ctx : State;
  drawn : nat;
  sent : list Sent
}.

Definition set_ctx (c : State) (st : IState) : IState :=
  {| ctx := c; drawn := drawn st; sent := sent st |}.

Definition add_sent (s : Sent) (st : IState) : IState :=
  {| ctx := ctx st; drawn := drawn st; sent := (sent st ++ [s])%list |}.

Definition MI (A : Type) : Type := IState → result A * IState.

#[global] Instance MI_ret : MRet MI := fun _ a st => (Ok a, st).
#[global] Instance MI_bind : MBind MI := fun _ _ f c st =>
  match c st with
  | (Ok a, st') => f a st'
  | (Raise e, st') => (Raise e, st')
  end.

Definition iget : MI IState := fun st => (Ok st, st).
Definition imodify (f : IState → IState) : MI unit := fun st => (Ok tt, f st).
Definition ilift {A} (r : result A) : MI A := fun st => (r, st).

(** A value that counts as true: a string that is there and not empty. *)
Definition truthy (o : option string) : option string :=
  match o with
  | Some s => if decide (s = "") then None else Some s
  | None => None
  end.

(** The Videos among the medias, in their order:
    [media for media in medias if isinstance(media, Video)]. *)
Definition videos_of (medias : list Media) : list Video :=
  omap (fun m => match m with MVideo v => Some v | _ => None end) medias.

Section Handlers.

Variable ienv : InlineEnv.

Definition inline_query_description (video : Video) : string :=
  let resp := "" in
  let resp :=
    match truthy (author video) with
    | Some who =>
        match truthy (extra_description ienv video) with
        | Some d => resp +:+ d
        | None =>
            resp +:+ str_format (env ienv) (gettext (env ienv) "by @{author} ")
                       [("author", who)]
        end
    | None => resp
    end in
  let resp :=
    resp +:+ str_format (env ienv) (gettext (env ienv) "from {m_type}")
               [("m_type", type_str ienv (type video))] in
  match truthy (language ienv video) with
  | Some _ => resp +:+ " " +:+ default "None" (language_emoji video)
  | None => resp
  end.

(** [content(media)], with the identifier drawn for it. *)
Definition content (rid : string) (media : Video) : InlineQueryResultVideo :=
  let c :=
    match truthy (caption media) with
    | Some c => c
    | None =>
        str_format (env ienv) (gettext (env ienv) "{m_type} video")
          [("m_type", type_value ienv (type media))]
    end in
  {| id := rid;
     video_url := url media;
     r_mime_type := mime_type media;
     r_thumbnail_url :=
       match truthy (thumbnail_url media) with
       | Some t => t
       | None => url media
       end;
     title := c;
     r_caption := inline_caption ienv media;
     description := inline_query_description media;
     r_video_width := video_width media;
     r_video_height := video_height media;
     r_video_duration := video_duration media |}.

Definition inline_query_video_from_media (medias : list Media)
    : MI (list InlineQueryResultVideo) := fun st =>
  let videos := videos_of medias in
  (Ok (imap (fun i v => content (uuid4 ienv (drawn st + i)) v) videos),
   {| ctx := ctx st; drawn := drawn st + List.length videos;
      sent := sent st |}).

Definition call_answer (a : Answer) : MI bool :=
  _ ← imodify (add_sent (Answered a));
  ilift (answer ienv a).

Definition call_save_report (r : Report) : MI string :=
  _ ← imodify (add_sent (SavedReport r));
  ilift (save_report ienv r).

Definition call_parse (links : list string) : MI (list Media) :=
  _ ← imodify (fun st => set_ctx (add_call (CallParse links) (ctx st)) st);
  ilift (Parser_parse (env ienv) links).

(** The loop [for video, iq_video in zip(...)] over the temporary
    history. *)
Definition remember (t : gmap string Video)
    (pairs : list (Video * InlineQueryResultVideo)) : gmap string Video :=
  foldl (fun t p => <[id p.2 := p.1]> t) t pairs.

(** The entries of [ctx.history] are the dictionaries that
    [chosen_inline_query] appended, each the [to_dict()] of a Video and
    kept in the context as the Video it describes.  A dictionary is no
    [Video] for [isinstance]: it goes through
    [inline_query_video_from_media] as a media of neither class. *)
Definition history_entry (d : Video) : Media := MPlain (original_url d).

Definition send_history : MI bool :=
  st ← iget;
  rs ← inline_query_video_from_media
         (history_entry <$> reverse (history (ctx st)));
  call_answer
    {| results := rs; is_personal := true;
       switch_pm_text := gettext (env ienv) "Recently added";
       switch_pm_parameter := "help"; cache_time := 1 |}.

Definition not_found_text : string :=
  gettext (env ienv)
    "No videos found. You don't think it's correct? Press here!".

Definition inline_query (u : InlineUpdate) : MI bool :=
  let query := str_strip (env ienv) (default "" (query u)) in
  if decide (query = "") then send_history
  else
    medias ← call_parse [query];
    match medias with
    | [] =>
        let r := {| report_type := MEDIA_NOT_FOUND; r_message := query;
                    report_place := INLINE; extra_data := None |} in
        report_uid ← call_save_report r;
        call_answer
          {| results := []; is_personal := true;
             switch_pm_text := not_found_text;
             switch_pm_parameter := "report_" +:+ report_uid;
             cache_time := 1 |}
    | _ :: _ =>
        rs ← inline_query_video_from_media medias;
        _ ← (if is_history_enabled (env ienv) (update u) then
               imodify (fun st =>
                 set_ctx
                   (set_temp_history
                      (remember (temp_history (ctx st))
                         (zip (videos_of medias) rs))
                      (ctx st)) st)
             else mret tt);
        let r := {| report_type := WRONG_MEDIA; r_message := query;
                    report_place := INLINE; extra_data := None |} in
        report_uid ← call_save_report r;
        call_answer
          {| results := rs; is_personal := true;
             switch_pm_text :=
               match rs with
               | [] => not_found_text
               | _ :: _ =>
                   found_text ienv (List.length rs)
                   +:+ gettext (env ienv)
                         ". Is it correct media? Press here if not!"
               end;
             switch_pm_parameter := "report_" +:+ report_uid;
             cache_time := 1 |}
    end.

End Handlers.

(** ** The parts of an inline search, named for the statements *)

(** The query as the handler reads it. *)
Definition search_text (ienv : InlineEnv) (u : InlineUpdate) : string :=
  str_strip (env ienv) (default "" (query u)).

(** The results built for the videos [vs] when [d] identifiers were drawn
    before. *)
Definition results_for (ienv : InlineEnv) (d : nat) (vs : list Video)
    : list InlineQueryResultVideo :=
  imap (fun i v => content ienv (uuid4 ienv (d + i)) v) vs.

(** The report saved for a search. *)
Definition search_report (q : string) (medias : list Media) : Report :=
  {| report_type :=
       match medias with [] => MEDIA_NOT_FOUND | _ :: _ => WRONG_MEDIA end;
     r_message := q; report_place := INLINE; extra_data := None |}.

(** The answer to a search, given the results and the id of its report. *)
Definition search_answer (ienv : InlineEnv)
    (rs : list InlineQueryResultVideo) (report_uid : string) : Answer :=
  {| results := rs; is_personal := true;
     switch_pm_text :=
       match rs with
       | [] => not_found_text ienv
       | _ :: _ =>
           found_text ienv (List.length rs)
           +:+ gettext (env ienv) ". Is it correct media? Press here if not!"
       end;
     switch_pm_parameter := "report_" +:+ report_uid;
     cache_time := 1 |}.

(** The answer to an empty query. *)
Definition history_answer (ienv : InlineEnv)
    (rs : list InlineQueryResultVideo) : Answer :=
  {| results := rs; is_personal := true;
     switch_pm_text := gettext (env ienv) "Recently added";
     switch_pm_parameter := "help"; cache_time := 1 |}.

(** The [n] identifiers drawn after the first [d] are pairwise distinct. *)
Definition fresh_ids (ienv : InlineEnv) (d n : nat) : Prop :=
  ∀ i j, (i < n)%nat → (j < n)%nat →
    uuid4 ienv (d + i) = uuid4 ienv (d + j) → i = j.

(** ** Sample inline query *)

Definition sample_ienv (medias : list Media) : InlineEnv :=
  {| env := sample_env true medias;
     uuid4 := fun n => "uuid-" +:+ String (ascii_of_nat (48 + n)) "";
     type_value := fun _ => "youtube";
     type_str := fun _ => "YouTube";
     extra_description := fun _ => None;
     language := fun _ => None;
     inline_caption := fun v => default "" (caption v);
     found_text := fun n => if decide (n = 1%nat) then "Found 1 video"
                            else "Found videos";
     save_report := fun _ => Ok "42";
     answer := fun _ => Ok true |}.

Definition sample_inline_update (q : string) : InlineUpdate :=
  {| update := sample_update; query := Some q |}.

Definition empty_istate : IState :=
  {| ctx := empty_state; drawn := 0; sent := [] |}.

Definition sample_search : InlineUpdate :=
  sample_inline_update "youtu.be/TCrP1SE2DkY".

Definition chosen_second : Update :=
  {| effective_message := None; message := None; effective_chat := None;
     result_id := "uuid-1" |}.

(** A context with two videos recorded in the history. *)
Definition recorded_istate : IState :=
  {| ctx := set_history [sample_media; other_media] empty_state;
     drawn := 0; sent := [] |}.

(** A group with an item that refuses the assignment of its caption. *)
Definition frozen_group : MediaGroup :=
  {| mg_original_url := "https://vm.tiktok.com/ZMabc/";
     mg_caption := Some "slides";
     input_medias :=
       [ {| im_media := "https://cdn/1.jpg"; im_caption := None;
            im_frozen := false |};
         {| im_media := "https://cdn/2.jpg"; im_caption := None;
            im_frozen := true |} ] |}.

Definition sample_group : MediaGroup :=
  {| mg_original_url := "https://vm.tiktok.com/ZMabc/";
     mg_caption := Some "slides";
     input_medias :=
       [ {| im_media := "https://cdn/1.jpg"; im_caption := None;
            im_frozen := false |};
         {| im_media := "https://cdn/2.jpg"; im_caption := Some "two";
            im_frozen := false |} ] |}.

(** A search resolved to a video, a group and another video. *)
Definition found_medias : list Media :=
  [MVideo sample_media; MGroup sample_group; MVideo other_media].

End Inline.

(** * Properties of the YouTube parser *)
Module YoutubeFacts.
Import Re Pytube Youtube.
Local Open Scope list_scope.

(** ** pytube's ordering *)

Lemma elem_of_middle {A} (x : A) (l1 l2 : list A) : x ∈ l1 ++ x :: l2.
Proof. apply elem_of_app. right. apply elem_of_cons. by left. Qed.


Lemma elem_of_insert_by_key x y l :
  y ∈ insert_by_key x l ↔ y = x ∨ y ∈ l.
Proof.
  induction l as [|z l IH]; simpl.
  - rewrite list_elem_of_singleton, elem_of_nil. tauto.
  - destruct (res_key x <=? res_key z)%nat.
    + rewrite !elem_of_cons. tauto.
    + rewrite !elem_of_cons, IH. tauto.
Qed.

Lemma elem_of_sorted_by_key y l : y ∈ sorted_by_key l ↔ y ∈ l.
Proof.
  induction l as [|x l IH]; simpl; [done|].
  rewrite elem_of_insert_by_key, elem_of_cons, IH. tauto.
Qed.

Lemma insert_by_key_sorted x l :
  StronglySorted key_le l → StronglySorted key_le (insert_by_key x l).
Proof.
  induction 1 as [|z l Hs IH Hz]; simpl.
  - repeat constructor.
  - destruct (res_key x <=? res_key z)%nat eqn:E.
    + apply Nat.leb_le in E. constructor; [by constructor|].
      constructor; [done|].
      eapply Forall_impl; [exact Hz|]. unfold key_le. intros; lia.
    + apply Nat.leb_gt in E. constructor; [done|].
      apply Forall_forall. intros y Hy.
      apply elem_of_insert_by_key in Hy as [->|Hy].
      * unfold key_le. lia.
      * rewrite Forall_forall in Hz. by apply Hz.
Qed.

Lemma sorted_by_key_sorted l : StronglySorted key_le (sorted_by_key l).
Proof.
  induction l; simpl; [constructor|by apply insert_by_key_sorted].
Qed.

Lemma order_by_resolution_sorted q :
  StronglySorted key_le (order_by_resolution q).
Proof. apply sorted_by_key_sorted. Qed.

Lemma elem_of_order_by_resolution c q :
  c ∈ order_by_resolution q ↔ c ∈ q ∧ is_Some (resolution c).
Proof.
  unfold order_by_resolution.
  rewrite elem_of_sorted_by_key, list_elem_of_filter. tauto.
Qed.

Lemma elem_of_candidates c q :
  c ∈ candidates q ↔
  c ∈ q ∧ type c = "video" ∧ is_progressive c = true ∧ subtype c = "mp4"
  ∧ is_Some (resolution c).
Proof.
  unfold candidates, filter_streams.
  rewrite elem_of_order_by_resolution, list_elem_of_filter. tauto.
Qed.

Lemma sorted_after (l1 l2 : list Stream) s c :
  StronglySorted key_le (l1 ++ s :: l2) → c ∈ l2 → key_le s c.
Proof.
  induction l1 as [|x l1 IH]; simpl; intros Hs Hc.
  - apply StronglySorted_inv in Hs as [_ Hall].
    rewrite Forall_forall in Hall. by apply Hall.
  - apply StronglySorted_inv in Hs as [Hs _]. by apply IH.
Qed.

(** The last element of a sorted list is above all the others. *)
Lemma sorted_last (l : list Stream) s c :
  StronglySorted key_le l → last l = Some s → c ∈ l → key_le c s.
Proof.
  intros Hs Hl Hc. apply last_Some in Hl as [l' ->].
  apply elem_of_app in Hc as [Hc|Hc].
  - apply list_elem_of_split in Hc as (l1 & l2 & ->).
    rewrite <- app_assoc in Hs. simpl in Hs.
    eapply sorted_after; [exact Hs|]. set_solver.
  - apply list_elem_of_singleton in Hc as ->. unfold key_le. lia.
Qed.

(** The highest-resolution stream is a progressive stream of the video
    and no progressive stream has a higher resolution. *)
Lemma get_highest_resolution_spec q best :
  get_highest_resolution q = Some best →
  best ∈ q ∧ is_progressive best = true ∧ is_Some (resolution best)
  ∧ ∀ c, c ∈ q → is_progressive c = true → key_le c best.
Proof.
  unfold get_highest_resolution. intros Hl.
  assert (Hin : best ∈ order_by_resolution (filter_progressive q)).
  { apply last_Some in Hl as [l' ->]. set_solver. }
  apply elem_of_order_by_resolution in Hin as [Hin Hres].
  apply list_elem_of_filter in Hin as [Hp Hin].
  repeat split; try done.
  intros c Hc Hcp. destruct (resolution c) as [r|] eqn:Er.
  - eapply sorted_last; [apply order_by_resolution_sorted|exact Hl|].
    apply elem_of_order_by_resolution. split.
    + apply list_elem_of_filter. done.
    + rewrite Er. by eexists.
  - unfold key_le, res_key. rewrite Er. simpl. lia.
Qed.

(** ** The selection loop *)
Section Selection.

Variable TG_FILE_LIMIT : Z.

Local Abbreviation deliverable := (deliverable TG_FILE_LIMIT).
Local Abbreviation select_step := (select_step TG_FILE_LIMIT).
Local Abbreviation select_stream := (select_stream TG_FILE_LIMIT).

(** What the loop leaves in [(max_fs, stream)]: either nothing on the way
    passed the test, or the stream is the first of the list whose size is
    the largest one within the ceiling. *)
Lemma select_step_eq (max_fs : Z) (cur x : Stream) :
  select_step (max_fs, cur) x =
  if bool_decide (TG_FILE_LIMIT >= filesize x ∧ filesize x > max_fs)
  then (filesize x, x) else (max_fs, cur).
Proof. reflexivity. Qed.

Lemma select_fold_spec (l : list Stream) (max_fs : Z) (cur : Stream) :
  ∀ r, r = foldl select_step (max_fs, cur) l →
  (r = (max_fs, cur)
   ∧ ∀ c, c ∈ l → ¬ (filesize c <= TG_FILE_LIMIT ∧ max_fs < filesize c))
  ∨ (∃ l1 l2, l = l1 ++ r.2 :: l2
     ∧ r.1 = filesize r.2
     ∧ filesize r.2 <= TG_FILE_LIMIT ∧ max_fs < filesize r.2
     ∧ (∀ c, c ∈ l1 → filesize c <= TG_FILE_LIMIT → filesize c < filesize r.2)
     ∧ (∀ c, c ∈ l2 → filesize c <= TG_FILE_LIMIT → filesize c <= filesize r.2)).
Proof.
  revert max_fs cur.
  induction l as [|x l IH]; intros max_fs cur r Hr; cbn [foldl] in Hr.
  - left. split; [done|]. intros c Hc. by apply elem_of_nil in Hc.
  - rewrite select_step_eq in Hr. case_bool_decide as Ht.
    + destruct (IH _ _ r Hr)
        as [[Er Hno]|(l1 & l2 & Hl & H1 & H2 & H3 & H4 & H5)].
      * right. exists [], l. rewrite Er. simpl. repeat split; try lia.
        -- intros c Hc. by apply elem_of_nil in Hc.
        -- intros c Hc Hle. specialize (Hno c Hc). lia.
      * right. exists (x :: l1), l2. repeat split; try done; try lia.
        -- simpl. by rewrite Hl at 1.
        -- intros c Hc Hle. apply elem_of_cons in Hc as [->|Hc]; [lia|].
           by apply H4.
    + destruct (IH _ _ r Hr)
        as [[Er Hno]|(l1 & l2 & Hl & H1 & H2 & H3 & H4 & H5)].
      * left. split; [done|]. intros c Hc.
        apply elem_of_cons in Hc as [->|Hc]; [lia|]. by apply Hno.
      * right. exists (x :: l1), l2. repeat split; try done.
        -- simpl. by rewrite Hl at 1.
        -- intros c Hc Hle. apply elem_of_cons in Hc as [->|Hc]; [lia|].
           by apply H4.
Qed.

(** With a deliverable stream in the list the loop ends on one, found at
    a position that splits the list as stated. *)
Lemma select_stream_split (l : list Stream) (best : Stream) :
  (∃ c, c ∈ l ∧ deliverable c) →
  let s := select_stream l best in
  ∃ l1 l2, l = l1 ++ s :: l2
    ∧ deliverable s
    ∧ (∀ c, c ∈ l1 → deliverable c → filesize c < filesize s)
    ∧ (∀ c, c ∈ l2 → deliverable c → filesize c <= filesize s).
Proof.
  intros (c & Hc & Hpos & Hle). unfold Youtube.select_stream.
  destruct (select_fold_spec l 0 best _ eq_refl)
    as [[_ Hno]|(l1 & l2 & Hl & _ & H2 & H3 & H4 & H5)].
  - exfalso. apply (Hno c Hc). lia.
  - simpl. exists l1, l2. unfold Youtube.deliverable.
    repeat split; try done.
    + intros d Hd [_ Hdle]. by apply H4.
    + intros d Hd [_ Hdle]. by apply H5.
Qed.

(** Without one the loop leaves the initial stream in place. *)
Lemma select_stream_none (l : list Stream) (best : Stream) :
  (∀ c, c ∈ l → ¬ deliverable c) → select_stream l best = best.
Proof.
  intros Hno. unfold Youtube.select_stream.
  destruct (select_fold_spec l 0 best _ eq_refl)
    as [[-> _]|(l1 & l2 & Hl & _ & H2 & H3 & _)]; [done|].
  exfalso. apply (Hno (foldl select_step (0, best) l).2).
  - rewrite Hl at 2. apply elem_of_middle.
  - split; lia.
Qed.

End Selection.

(** ** The parser *)
Section Parsing.

Variable TG_FILE_LIMIT : Z.
Variable pytube_YouTube : string → result YouTube.

Local Abbreviation deliverable := (deliverable TG_FILE_LIMIT).
Local Abbreviation select_stream := (select_stream TG_FILE_LIMIT).
Local Abbreviation delivery_stream := (delivery_stream TG_FILE_LIMIT).
Local Abbreviation _parse := (_parse TG_FILE_LIMIT pytube_YouTube).
Local Abbreviation produces := (produces TG_FILE_LIMIT pytube_YouTube).

(** What a returned Video is made of. *)
Lemma parse_inv m medias v :
  _parse m = Ok medias → Medias.MVideo v ∈ medias →
  ∃ yt_id yt q best,
    group m "id" = Ok yt_id
    ∧ pytube_YouTube (canonical_url yt_id) = Ok yt
    ∧ streams yt = Ok q
    ∧ get_highest_resolution q = Some best
    ∧ medias = [Medias.MVideo v]
    ∧ Medias.url v = url (select_stream (candidates q) best)
    ∧ Medias.mime_type v = mime_type (select_stream (candidates q) best)
    ∧ Medias.max_quality_url v = Some (url best)
    ∧ Medias.original_url v = canonical_url yt_id.
Proof.
  unfold Youtube._parse. intros Hp Hin.
  destruct (group m "id") as [yt_id|e]; cycle 1.
  { destruct (is_IndexError e); [|done].
    injection Hp as <-. by apply elem_of_nil in Hin. }
  destruct (pytube_YouTube (canonical_url yt_id)) as [yt|] eqn:Hyt; [|done].
  simpl in Hp. destruct (streams yt) as [q|] eqn:Hq; [|done].
  simpl in Hp.
  destruct (get_highest_resolution q) as [best|] eqn:Hbest; [|done].
  simpl in Hp.
  destruct (author yt) as [a|ea]; simpl in Hp; cycle 1.
  { destruct (is_PytubeError ea); [|done].
    injection Hp as <-. by apply elem_of_nil in Hin. }
  destruct (title yt) as [c|ec]; simpl in Hp; cycle 1.
  { destruct (is_PytubeError ec); [|done].
    injection Hp as <-. by apply elem_of_nil in Hin. }
  destruct (thumbnail_url yt) as [t|et]; simpl in Hp; cycle 1.
  { destruct (is_PytubeError et); [|done].
    injection Hp as <-. by apply elem_of_nil in Hin. }
  injection Hp as <-. apply list_elem_of_singleton in Hin.
  injection Hin as ->.
  exists yt_id, yt, q, best. by repeat split.
Qed.

Lemma produces_inv m q v :
  produces m q v →
  ∃ best,
    get_highest_resolution q = Some best
    ∧ delivery_stream q = Some (select_stream (candidates q) best)
    ∧ Medias.url v = url (select_stream (candidates q) best)
    ∧ Medias.max_quality_url v = Some (url best).
Proof.
  intros (yt_id & yt & Hg & Hyt & Hq & Hp).
  destruct (parse_inv m _ v Hp) as
    (yt_id' & yt' & q' & best & Hg' & Hyt' & Hq' & Hb & _ & Hu & _ & Hm & _).
  { set_solver. }
  rewrite Hg in Hg'. injection Hg' as <-.
  rewrite Hyt in Hyt'. injection Hyt' as <-.
  rewrite Hq in Hq'. injection Hq' as <-.
  exists best. unfold Youtube.delivery_stream. rewrite Hb. done.
Qed.

(** The parser does return a Video when pytube answers every question
    and the video has a progressive stream with a resolution. *)
Lemma parse_returns_video m yt_id yt q a c t s :
  group m "id" = Ok yt_id →
  pytube_YouTube (canonical_url yt_id) = Ok yt →
  streams yt = Ok q → author yt = Ok a → title yt = Ok c →
  thumbnail_url yt = Ok t →
  s ∈ q → is_progressive s = true → is_Some (resolution s) →
  ∃ v, _parse m = Ok [Medias.MVideo v].
Proof.
  intros Hg Hyt Hq Ha Hc Ht Hs Hp Hr.
  unfold Youtube._parse. rewrite Hg, Hyt. simpl. rewrite Hq. simpl.
  destruct (get_highest_resolution q) as [best|] eqn:Hb.
  - simpl. rewrite Ha, Hc, Ht. simpl. by eexists.
  - exfalso. unfold get_highest_resolution in Hb.
    apply last_None in Hb.
    assert (Hin : s ∈ order_by_resolution (filter_progressive q)).
    { apply elem_of_order_by_resolution. split; [|done].
      by apply list_elem_of_filter. }
    rewrite Hb in Hin. by apply elem_of_nil in Hin.
Qed.

(** An exception raised while the streams are fetched leaves [_parse]
    as it is, a pytube error like any other. *)
Lemma streams_error_propagates m yt_id yt e :
  group m "id" = Ok yt_id →
  pytube_YouTube (canonical_url yt_id) = Ok yt →
  streams yt = Raise e →
  _parse m = Raise e.
Proof.
  intros Hg Hyt Hq. unfold Youtube._parse.
  rewrite Hg, Hyt. simpl. by rewrite Hq.
Qed.

(** A pytube error raised while the Video is built is caught. *)
Lemma video_error_is_caught m yt_id yt q best k :
  group m "id" = Ok yt_id →
  pytube_YouTube (canonical_url yt_id) = Ok yt →
  streams yt = Ok q →
  get_highest_resolution q = Some best →
  author yt = Raise (PytubeError k) →
  _parse m = Ok [].
Proof.
  intros Hg Hyt Hq Hb Ha. unfold Youtube._parse.
  rewrite Hg, Hyt. simpl. rewrite Hq. simpl. rewrite Hb. simpl.
  by rewrite Ha.
Qed.

(** C1: when at least one candidate stream is deliverable (its size is
    positive and at most [TG_FILE_LIMIT]), the stream whose url the Video
    delivers is a candidate within the ceiling, and no deliverable
    candidate is larger. *)
Theorem delivery_within_ceiling m q v :
  produces m q v →
  (∃ c, c ∈ candidates q ∧ deliverable c) →
  ∃ s, delivery_stream q = Some s
    ∧ s ∈ candidates q
    ∧ Medias.url v = url s
    ∧ 0 < filesize s ∧ filesize s <= TG_FILE_LIMIT
    ∧ ∀ c, c ∈ candidates q → deliverable c → filesize c <= filesize s.
Proof.
  intros Hp Hex.
  destruct (produces_inv _ _ _ Hp) as (best & _ & Hd & Hu & _).
  destruct (select_stream_split TG_FILE_LIMIT (candidates q) best Hex)
    as (l1 & l2 & Hl & [Hpos Hle] & Hbefore & Hafter).
  eexists. split; [exact Hd|]. repeat split; try done.
  - rewrite Hl at 2. apply elem_of_middle.
  - intros c Hc Hdel. rewrite Hl in Hc.
    apply elem_of_app in Hc as [Hc|Hc].
    + specialize (Hbefore c Hc Hdel). lia.
    + apply elem_of_cons in Hc as [->|Hc]; [lia|]. by apply Hafter.
Qed.

(** C2: when no candidate stream is deliverable, the delivery url and
    the full-quality url of the Video are both the url of the
    highest-resolution stream, which no progressive stream of the video
    outranks. *)
Theorem oversize_falls_back_to_best m q v :
  produces m q v →
  (∀ c, c ∈ candidates q → ¬ deliverable c) →
  ∃ best, get_highest_resolution q = Some best
    ∧ Medias.url v = url best
    ∧ Medias.max_quality_url v = Some (url best)
    ∧ (∀ c, c ∈ q → is_progressive c = true → (res_key c <= res_key best)%nat)
    ∧ (∀ c, c ∈ candidates q → (res_key c <= res_key best)%nat).
Proof.
  intros Hp Hno.
  destruct (produces_inv _ _ _ Hp) as (best & Hb & _ & Hu & Hm).
  rewrite (select_stream_none TG_FILE_LIMIT _ best Hno) in Hu.
  destruct (get_highest_resolution_spec q best Hb) as (_ & _ & _ & Hmax).
  exists best. repeat split; try done.
  intros c Hc. apply elem_of_candidates in Hc as (Hc & _ & Hprog & _).
  by apply Hmax.
Qed.

(** C3, as the code has it: when some candidate is deliverable, the
    delivery stream is a deliverable candidate of the largest size among
    the deliverable ones, and among the deliverable candidates of that
    size it is the first in the order of the loop, so the one of lowest
    resolution: every other one of another resolution has a higher
    one. *)
Theorem ties_keep_lower_rank m q v :
  produces m q v →
  (∃ c, c ∈ candidates q ∧ deliverable c) →
  ∃ s, delivery_stream q = Some s
    ∧ Medias.url v = url s
    ∧ s ∈ candidates q
    ∧ deliverable s
    ∧ (∀ c, c ∈ candidates q → deliverable c → filesize c <= filesize s)
    ∧ (∃ l1 l2, candidates q = l1 ++ s :: l2
         ∧ ∀ c, c ∈ l1 → deliverable c → filesize c < filesize s)
    ∧ (∀ c, c ∈ candidates q → deliverable c →
         filesize c = filesize s → (res_key s <= res_key c)%nat)
    ∧ (∀ c, c ∈ candidates q → deliverable c →
         filesize c = filesize s → res_key c ≠ res_key s →
         (res_key s < res_key c)%nat).
Proof.
  intros Hp Hex.
  destruct (produces_inv _ _ _ Hp) as (best & _ & Hd & Hu & _).
  destruct (select_stream_split TG_FILE_LIMIT (candidates q) best Hex)
    as (l1 & l2 & Hl & Hdel & Hbefore & Hafter).
  assert (Htie : ∀ c, c ∈ candidates q → deliverable c →
            filesize c = filesize (select_stream (candidates q) best) →
            (res_key (select_stream (candidates q) best) <= res_key c)%nat).
  { intros c Hc Hdc Heq.
    pose proof (order_by_resolution_sorted (filter_streams "video" "mp4" q))
      as Hsorted.
    fold (candidates q) in Hsorted. rewrite Hl in Hsorted, Hc.
    apply elem_of_app in Hc as [Hc|Hc].
    - specialize (Hbefore c Hc Hdc). lia.
    - apply elem_of_cons in Hc as [->|Hc]; [done|].
      by apply (sorted_after _ _ _ _ Hsorted). }
  eexists. split; [exact Hd|]. split; [done|].
  split; [rewrite Hl at 2; apply elem_of_middle|].
  split; [done|]. split; [|split; [|split]].
  - intros c Hc Hdc. rewrite Hl in Hc.
    apply elem_of_app in Hc as [Hc|Hc].
    + specialize (Hbefore c Hc Hdc). lia.
    + apply elem_of_cons in Hc as [->|Hc]; [lia|]. by apply Hafter.
  - by exists l1, l2.
  - exact Htie.
  - intros c Hc Hdc Heq Hne. specialize (Htie c Hc Hdc Heq). lia.
Qed.

(** C5, as the code has it: the original url of a returned Video is the
    watch url built from the captured id, whatever shape the user's link
    had; it is the user's link exactly when that link is this url. *)
Theorem original_url_is_canonical link m medias v :
  match_link link = Some m →
  _parse m = Ok medias → Medias.MVideo v ∈ medias →
  ∃ yt_id, group m "id" = Ok yt_id
    ∧ Medias.original_url v = "https://youtube.com/watch?v=" +:+ yt_id
    ∧ (Medias.original_url v = link
       ↔ link = "https://youtube.com/watch?v=" +:+ yt_id).
Proof.
  intros _ Hp Hin.
  destruct (parse_inv m medias v Hp Hin)
    as (yt_id & _ & _ & _ & Hg & _ & _ & _ & _ & _ & _ & _ & Ho).
  exists yt_id. unfold canonical_url in Ho. rewrite Ho.
  repeat split; try done; by intros ->.
Qed.

End Parsing.

(** C1, at the example of the specification: of the 25 MB, 15 MB and
    8 MB streams the 15 MB one is delivered under a 20 MB ceiling. *)
Lemma delivery_within_ceiling_witness :
  ∃ s, delivery_stream twenty_MB three_sizes = Some s
    ∧ s ∈ candidates three_sizes
    ∧ "https://cdn/360" = url s
    ∧ 0 < filesize s ∧ filesize s <= twenty_MB
    ∧ ∀ c, c ∈ candidates three_sizes → deliverable twenty_MB c →
        filesize c <= filesize s.
Proof.
  apply (delivery_within_ceiling twenty_MB
           (fun _ => Ok (video_of three_sizes)) short_link_match
           three_sizes (sample_video "https://cdn/360" "https://cdn/720")).
  - exists "TCrP1SE2DkY", (video_of three_sizes).
    repeat split; reflexivity.
  - exists (mp4 "https://cdn/144" 8000000 144). split.
    + vm_compute. apply (elem_of_middle _ [] _).
    + unfold deliverable, twenty_MB. simpl. lia.
Defined.

Lemma candidates_all_oversize : candidates all_oversize = all_oversize.
Proof. reflexivity. Qed.

Lemma candidates_same_size : candidates same_size = same_size.
Proof. reflexivity. Qed.

Lemma produces_sample q delivery best :
  _parse twenty_MB (fun _ => Ok (video_of q)) short_link_match
    = Ok [Medias.MVideo (sample_video delivery best)] →
  produces twenty_MB (fun _ => Ok (video_of q)) short_link_match q
    (sample_video delivery best).
Proof.
  intros Hp. exists "TCrP1SE2DkY", (video_of q). by repeat split.
Qed.

(** C2, at a video whose two streams both exceed a 20 MB ceiling: the
    720p stream is delivered and is the full-quality stream. *)
Lemma oversize_falls_back_to_best_witness :
  ∃ best, get_highest_resolution all_oversize = Some best
    ∧ "https://cdn/720" = url best
    ∧ Some "https://cdn/720" = Some (url best)
    ∧ (∀ c, c ∈ all_oversize → is_progressive c = true →
         (res_key c <= res_key best)%nat)
    ∧ (∀ c, c ∈ candidates all_oversize → (res_key c <= res_key best)%nat).
Proof.
  apply (oversize_falls_back_to_best twenty_MB
           (fun _ => Ok (video_of all_oversize)) short_link_match
           all_oversize (sample_video "https://cdn/720" "https://cdn/720")).
  - by apply produces_sample.
  - rewrite candidates_all_oversize. unfold all_oversize, twenty_MB.
    intros c Hc [_ Hle].
    rewrite !elem_of_cons, elem_of_nil in Hc.
    destruct Hc as [->|[->|[]]]; simpl in Hle; lia.
Defined.

(** C3, at two streams of 10 MB, one 360p and one 720p, under a 20 MB
    ceiling: the 360p stream is delivered. *)
Lemma ties_keep_lower_rank_witness :
  ∃ s, delivery_stream twenty_MB same_size = Some s
    ∧ "https://cdn/360" = url s
    ∧ s ∈ candidates same_size
    ∧ deliverable twenty_MB s
    ∧ (∀ c, c ∈ candidates same_size → deliverable twenty_MB c →
         filesize c <= filesize s)
    ∧ (∃ l1 l2, candidates same_size = l1 ++ s :: l2
         ∧ ∀ c, c ∈ l1 → deliverable twenty_MB c → filesize c < filesize s)
    ∧ (∀ c, c ∈ candidates same_size → deliverable twenty_MB c →
         filesize c = filesize s → (res_key s <= res_key c)%nat)
    ∧ (∀ c, c ∈ candidates same_size → deliverable twenty_MB c →
         filesize c = filesize s → res_key c ≠ res_key s →
         (res_key s < res_key c)%nat).
Proof.
  apply (ties_keep_lower_rank twenty_MB
           (fun _ => Ok (video_of same_size)) short_link_match
           same_size (sample_video "https://cdn/360" "https://cdn/720")).
  - by apply produces_sample.
  - exists (mp4 "https://cdn/360" 10000000 360). split.
    + rewrite candidates_same_size. apply (elem_of_middle _ [] _).
    + unfold deliverable, twenty_MB. simpl. lia.
Defined.

(** C3 as the specification words it fails: with a 360p and a 720p
    stream of 10 MB each, both within a 20 MB ceiling, the loop keeps
    the 360p stream, which it meets first. *)
Lemma ties_prefer_higher_rank_fails : ¬ ties_prefer_higher_rank twenty_MB.
Proof.
  intros H.
  specialize (H same_size (mp4 "https://cdn/360" 10000000 360)
                (mp4 "https://cdn/720" 10000000 720) eq_refl).
  assert (Hle : (720 <= 360)%nat); [|lia].
  apply H.
  - rewrite candidates_same_size. apply (elem_of_middle _ [_] []).
  - unfold deliverable, twenty_MB. simpl. lia.
  - rewrite candidates_same_size. unfold same_size. intros d Hd _.
    rewrite !elem_of_cons, elem_of_nil in Hd.
    destruct Hd as [->|[->|[]]]; simpl; lia.
Qed.

(** C5, at the short link: the original url is the watch url of the
    same id, not the short link. *)
Lemma original_url_is_canonical_witness :
  ∃ yt_id, group short_link_match "id" = Ok yt_id
    ∧ "https://youtube.com/watch?v=TCrP1SE2DkY"
        = "https://youtube.com/watch?v=" +:+ yt_id
    ∧ ("https://youtube.com/watch?v=TCrP1SE2DkY" = short_link
       ↔ short_link = "https://youtube.com/watch?v=" +:+ yt_id).
Proof.
  apply (original_url_is_canonical twenty_MB
           (fun _ => Ok (video_of one_stream)) short_link short_link_match
           [Medias.MVideo (sample_video "https://cdn/720" "https://cdn/720")]
           (sample_video "https://cdn/720" "https://cdn/720")).
  - reflexivity.
  - reflexivity.
  - apply list_elem_of_singleton. reflexivity.
Defined.

(** C5 as the specification words it fails: for the accepted link
    https://youtu.be/TCrP1SE2DkY the original url of the Video is
    https://youtube.com/watch?v=TCrP1SE2DkY. *)
Lemma original_url_is_link_fails :
  ¬ original_url_is_link twenty_MB (fun _ => Ok (video_of one_stream)).
Proof.
  intros H.
  specialize (H short_link short_link_match one_stream
                (sample_video "https://cdn/720" "https://cdn/720") eq_refl).
  discriminate H. by apply produces_sample.
Qed.

(** C6: the link to a video that is removed ([VideoUnavailable]),
    private ([VideoPrivate]) or blocked in the region
    ([VideoRegionBlocked]) is accepted by the parser, pytube raises the
    error when the streams are asked for, and [_parse] raises it in turn
    instead of returning the empty list; so it does for any pytube
    error raised there. *)
Theorem unavailable_video_raises :
  match_link short_link = Some short_link_match
  ∧ _parse twenty_MB (fun _ => Ok (unavailable_video VideoPrivate))
      short_link_match = Raise (PytubeError VideoPrivate)
  ∧ _parse twenty_MB (fun _ => Ok (unavailable_video VideoUnavailable))
      short_link_match = Raise (PytubeError VideoUnavailable)
  ∧ _parse twenty_MB (fun _ => Ok (unavailable_video VideoRegionBlocked))
      short_link_match = Raise (PytubeError VideoRegionBlocked)
  ∧ ∀ limit k,
      _parse limit (fun _ => Ok (unavailable_video k)) short_link_match
      = Raise (PytubeError k).
Proof.
  do 4 (split; [reflexivity|]).
  intros limit k.
  by apply (streams_error_propagates limit _ _ "TCrP1SE2DkY"
              (unavailable_video k)).
Qed.

End YoutubeFacts.

(** * Properties of the handlers *)
Module MainFacts.
Import Medias Main.
Local Open Scope list_scope.

Ltac run_M :=
  repeat (cbn [mbind mret M_bind M_ret attr raise lift get_state modify
                 fst snd] in *;
          unfold mbind, mret, M_bind, M_ret, attr, raise, lift, get_state,
                 modify in * ).

Ltac no_calls :=
  exists []; split; [by rewrite app_nil_r | simpl; lia].

Ltac solve_calls :=
  simpl; rewrite <- ?app_assoc; eexists; split;
  [reflexivity | simpl; lia].

Section Handlers.

Variable env : Env.

Local Abbreviation _process_video := (_process_video env).
Local Abbreviation _process_media_group := (_process_media_group env).
Local Abbreviation delivery := (delivery env).
Local Abbreviation link_parser := (link_parser env).
Local Abbreviation chosen_inline_query := (chosen_inline_query env).

(** ** Delivery and the cache *)

Lemma process_video_success update media st res v :
  delivery update media st = Ok res → video res = Some v →
  _process_video update media st =
    (Ok tt,
     set_cache (<[original_url media := v]> (tg_video_cache st))
       (add_call
          (CallReplyVideo
             (video_arg (tg_video_cache st !! original_url media) media)
             (media_caption env media)) st)).
Proof.
  unfold Main.delivery, Main._process_video, try_exceptM. intros Hd Hv.
  destruct (effective_message update) as [m|]; [|done].
  run_M. simpl. rewrite Hd, Hv. reflexivity.
Qed.

(** A message that comes back without a video: the handler fails on
    [res.video.to_dict()] and the cache is not written. *)
Lemma process_video_no_handle update media st res :
  delivery update media st = Ok res → video res = None →
  (_process_video update media st).1 = Raise AttributeError
  ∧ tg_video_cache (_process_video update media st).2 = tg_video_cache st.
Proof.
  unfold Main.delivery, Main._process_video, try_exceptM. intros Hd Hv.
  destruct (effective_message update) as [m|]; [|done].
  run_M. simpl. rewrite Hd, Hv. simpl. done.
Qed.

Lemma process_video_failure update media st e :
  delivery update media st = Raise e →
  (∃ e', (_process_video update media st).1 = Raise e')
  ∧ tg_video_cache (_process_video update media st).2 = tg_video_cache st.
Proof.
  unfold Main.delivery, Main._process_video, try_exceptM. intros Hd.
  destruct (effective_message update) as [m|].
  - run_M. simpl. rewrite Hd.
    destruct (is_BadRequest e); [|by eauto].
    destruct (effective_chat update) as [chat|]; [|by eauto].
    destruct (decide (chat = PRIVATE)); [|by eauto].
    destruct (reply_text env m _); simpl; by eauto.
  - run_M. simpl. injection Hd as <-. simpl. by eauto.
Qed.

(** Where the cache is written: in [_process_video] the cache entry of
    the video's original url is written, over any earlier entry, when
    the platform answers [reply_video] with the sent message and its
    video, and only then: when the delivery raises, [BadRequest] or any
    other error, the handler raises and leaves the cache as it was. *)
Theorem cache_written_after_delivery update media st :
  (∀ res v, delivery update media st = Ok res → video res = Some v →
     (_process_video update media st).1 = Ok tt
     ∧ tg_video_cache (_process_video update media st).2
       = <[original_url media := v]> (tg_video_cache st))
  ∧ (∀ e, delivery update media st = Raise e →
       (∃ e', (_process_video update media st).1 = Raise e')
       ∧ tg_video_cache (_process_video update media st).2
         = tg_video_cache st)
  ∧ (tg_video_cache (_process_video update media st).2 ≠ tg_video_cache st →
       ∃ res v, delivery update media st = Ok res ∧ video res = Some v).
Proof.
  split; [|split].
  - intros res v Hd Hv.
    by rewrite (process_video_success _ _ _ _ _ Hd Hv).
  - apply process_video_failure.
  - intros Hne. destruct (delivery update media st) as [res|e] eqn:Hd.
    + destruct (video res) as [v|] eqn:Hv; [by eauto|].
      destruct (process_video_no_handle _ _ _ _ Hd Hv) as [_ Heq]. done.
    + destruct (process_video_failure _ _ _ _ Hd) as [_ Heq]. done.
Qed.

(** ** The history *)

Lemma chosen_inline_query_history update st :
  history (chosen_inline_query update st).2 = history st
  ∨ ∃ v, temp_history st !! result_id update = Some v
      ∧ (v ∉ history st)
      ∧ history (chosen_inline_query update st).2 = history st ++ [v].
Proof.
  unfold Main.chosen_inline_query.
  destruct (temp_history st !! result_id update) as [v|]; [|by left].
  destruct (is_history_enabled env update); simpl; [|by left].
  destruct (decide (v ∈ history st)); [by left|].
  right. by exists v.
Qed.

Lemma chosen_inline_query_records update st v :
  temp_history st !! result_id update = Some v →
  is_history_enabled env update = true →
  history (chosen_inline_query update st).2
  = if decide (v ∈ history st) then history st else history st ++ [v].
Proof.
  unfold Main.chosen_inline_query. intros -> ->. simpl.
  by destruct (decide (v ∈ history st)).
Qed.

Lemma chosen_inline_query_NoDup update st :
  NoDup (history st) → NoDup (history (chosen_inline_query update st).2).
Proof.
  intros Hnd.
  destruct (chosen_inline_query_history update st)
    as [->|(v & _ & Hv & ->)]; [done|].
  apply NoDup_app. repeat split; [done| |apply NoDup_singleton].
  intros x Hx Hx'. apply list_elem_of_singleton in Hx' as ->. done.
Qed.

(** C8: recording a chosen video is conditional on membership by value.
    The handler keeps a duplicate-free history duplicate-free, and when
    it runs twice for the same video (the inline results offered anew in
    between, under whatever result ids) the history holds the video
    once: started empty, its length is 1. *)
Theorem history_records_once :
  (∀ update st,
     NoDup (history st) → NoDup (history (chosen_inline_query update st).2))
  ∧ (∀ update1 update2 t2 st v,
       temp_history st !! result_id update1 = Some v →
       t2 !! result_id update2 = Some v →
       is_history_enabled env update1 = true →
       is_history_enabled env update2 = true →
       let st1 := (chosen_inline_query update1 st).2 in
       let st2 := (chosen_inline_query update2 (set_temp_history t2 st1)).2 in
       v ∈ history st2
       ∧ history st2 = history st1
       ∧ (history st = [] →
          history st2 = [v] ∧ List.length (history st2) = 1%nat)).
Proof.
  split; [apply chosen_inline_query_NoDup|].
  intros update1 update2 t2 st v H1 H2 E1 E2 st1 st2.
  assert (Hst1 : history st1
            = if decide (v ∈ history st) then history st else history st ++ [v]).
  { by apply chosen_inline_query_records. }
  assert (Hin1 : v ∈ history st1).
  { rewrite Hst1. destruct (decide (v ∈ history st)); [done|].
    apply elem_of_app. right. by apply list_elem_of_singleton. }
  assert (Hst2 : history st2 = history st1).
  { unfold st2. rewrite (chosen_inline_query_records _ _ v); [|done|done].
    simpl. by rewrite decide_True. }
  assert (Hempty : history st = [] → history st2 = [v]).
  { intros H. rewrite Hst2, Hst1, H.
    rewrite decide_False; [done|apply not_elem_of_nil]. }
  repeat split.
  - by rewrite Hst2.
  - done.
  - by apply Hempty.
  - rewrite Hempty; done.
Qed.

(** ** Link extraction and dispatch *)

Lemma process_video_calls update media st :
  extends_calls st (_process_video update media st).2.
Proof.
  unfold Main._process_video, try_exceptM, extends_calls.
  destruct (effective_message update) as [m|]; run_M; simpl.
  - destruct (reply_video env m _ _ _ _ _) as [res|e]; simpl.
    + destruct (video res); solve_calls.
    + destruct (is_BadRequest e); [|solve_calls].
      destruct (effective_chat update) as [chat|]; [|solve_calls].
      destruct (decide (chat = PRIVATE)); [|solve_calls].
      destruct (reply_text env m _); solve_calls.
  - no_calls.
Qed.

Lemma process_media_group_calls update g st :
  extends_calls st (_process_media_group update g st).2.
Proof.
  unfold Main._process_media_group, extends_calls. run_M.
  destruct (set_captions (mg_caption g) (input_medias g)) as [items|e];
    [|no_calls].
  destruct (message update) as [m|]; run_M; simpl.
  - destruct (reply_media_group env m _); solve_calls.
  - no_calls.
Qed.

Lemma process_calls update x st :
  extends_calls st (process env update x st).2.
Proof.
  destruct x; simpl.
  - apply process_video_calls.
  - apply process_media_group_calls.
  - no_calls.
Qed.

(** The loop stops at the first Video or MediaGroup. *)
Lemma deliver_first update pre x post :
  Forall (fun y => is_deliverable_media y = false) pre →
  is_deliverable_media x = true →
  deliver env update (pre ++ x :: post) = process env update x.
Proof.
  induction 1 as [|y pre Hy _ IH]; intros Hx; simpl.
  - by destruct x.
  - destruct y; try done. by apply IH.
Qed.

Lemma deliver_none update medias :
  Forall (fun y => is_deliverable_media y = false) medias →
  deliver env update medias = mret tt.
Proof.
  induction 1 as [|y l Hy _ IH]; simpl; [done|]. by destruct y.
Qed.


Lemma link_parser_unfold update st :
  link_parser update st =
  let links := message_links (effective_message update) in
  match Parser_parse env links with
  | Ok medias => deliver env update medias (add_call (CallParse links) st)
  | Raise e => (Raise e, add_call (CallParse links) st)
  end.
Proof.
  unfold Main.link_parser. run_M. simpl.
  by destruct (Parser_parse env _).
Qed.



(** C10: when the registry resolves the links of a message to medias of
    which [x] is the first Video or MediaGroup, [link_parser] does with
    the message what processing [x] does and nothing more, whatever
    medias follow [x]: they are never delivered, and the handler makes
    at most one delivery call. *)
Theorem only_first_media_is_delivered update pre x post st :
  Forall (fun y => is_deliverable_media y = false) pre →
  is_deliverable_media x = true →
  let links := message_links (effective_message update) in
  Parser_parse env links = Ok (pre ++ x :: post) →
  link_parser update st
    = process env update x (add_call (CallParse links) st)
  ∧ ∃ rest, calls (link_parser update st).2
            = calls st ++ CallParse links :: rest
      ∧ (List.length (filter (fun c => is_delivery_call c = true) rest)
         <= 1)%nat.
Proof.
  intros Hpre Hx links Hp.
  assert (Heq : link_parser update st
                = process env update x (add_call (CallParse links) st)).
  { rewrite link_parser_unfold. fold links. simpl. rewrite Hp.
    by rewrite deliver_first. }
  split; [done|]. rewrite Heq.
  destruct (process_calls update x (add_call (CallParse links) st))
    as (rest & -> & Hle).
  exists rest. simpl. by rewrite <- app_assoc.
Qed.

End Handlers.

(** At a delivery the platform accepts and at one it refuses with
    [BadRequest]: the first leaves the handle under the original url,
    the second leaves the cache empty and raises. *)
Lemma cache_written_after_delivery_witness :
  ((_process_video (sample_env true []) sample_update sample_media
      empty_state).1 = Ok tt
   ∧ tg_video_cache
       (_process_video (sample_env true []) sample_update sample_media
          empty_state).2
     = <[original_url sample_media := sample_handle]> ∅)
  ∧ ((∃ e', (_process_video (sample_env false []) sample_update sample_media
               empty_state).1 = Raise e')
     ∧ tg_video_cache
         (_process_video (sample_env false []) sample_update sample_media
            empty_state).2
       = ∅).
Proof.
  split.
  - apply (proj1 (cache_written_after_delivery (sample_env true [])
                    sample_update sample_media empty_state)
             sent_message sample_handle); reflexivity.
  - apply (proj1 (proj2 (cache_written_after_delivery (sample_env false [])
                           sample_update sample_media empty_state))
             (BadRequest "Wrong file identifier/HTTP URL specified")).
    reflexivity.
Defined.

(** C8, at a video chosen twice, with an empty history to start with. *)
Lemma history_records_once_witness :
  let st := set_temp_history {[ "result-1" := sample_media ]} empty_state in
  let st1 := (chosen_inline_query (sample_env true []) sample_update st).2 in
  let st2 :=
    (chosen_inline_query (sample_env true []) sample_update
       (set_temp_history {[ "result-1" := sample_media ]} st1)).2 in
  sample_media ∈ history st2
  ∧ history st2 = history st1
  ∧ (history st = [] →
     history st2 = [sample_media] ∧ List.length (history st2) = 1%nat).
Proof.
  apply (proj2 (history_records_once (sample_env true []))
           sample_update sample_update
           {[ "result-1" := sample_media ]}
           (set_temp_history {[ "result-1" := sample_media ]} empty_state)
           sample_media); reflexivity.
Defined.


(** C10, at a message resolved to a plain media and two videos: the
    handler does what processing the first video does. *)
Lemma only_first_media_is_delivered_witness :
  let env := sample_env true
               [MPlain "https://example.org/a"; MVideo sample_media;
                MVideo other_media] in
  let links := message_links (effective_message sample_update) in
  link_parser env sample_update empty_state
    = process env sample_update (MVideo sample_media)
        (add_call (CallParse links) empty_state)
  ∧ ∃ rest, calls (link_parser env sample_update empty_state).2
            = calls empty_state ++ CallParse links :: rest
      ∧ (List.length (filter (fun c => is_delivery_call c = true) rest)
         <= 1)%nat.
Proof.
  apply (only_first_media_is_delivered
           (sample_env true
              [MPlain "https://example.org/a"; MVideo sample_media;
               MVideo other_media])
           sample_update [MPlain "https://example.org/a"]
           (MVideo sample_media) [MVideo other_media] empty_state).
  - constructor; [reflexivity|constructor].
  - reflexivity.
  - reflexivity.
Defined.

(** C7: a delivery that succeeds with a message that carries no video
    (the platform files a video without sound as an animation): the
    video was sent and [reply_video] returned, yet [res.video.to_dict()]
    raises [AttributeError], no cache entry is written for the original
    url and the handler ends on the error. *)
Theorem delivery_without_video_is_not_cached env update media st m res :
  effective_message update = Some m →
  delivery env update media st = Ok res →
  video res = None →
  _process_video env update media st
  = (Raise AttributeError,
     add_call
       (CallReplyVideo
          (video_arg (tg_video_cache st !! original_url media) media)
          (media_caption env media)) st)
  ∧ tg_video_cache (_process_video env update media st).2 !! original_url media
    = tg_video_cache st !! original_url media
  ∧ tg_video_cache (_process_video env update media st).2 = tg_video_cache st.
Proof.
  intros Hm Hd Hv.
  assert (Heq : _process_video env update media st
          = (Raise AttributeError,
             add_call
               (CallReplyVideo
                  (video_arg (tg_video_cache st !! original_url media) media)
                  (media_caption env media)) st)).
  { unfold Main.delivery in Hd. rewrite Hm in Hd.
    unfold Main._process_video, try_exceptM. rewrite Hm.
    run_M. simpl. rewrite Hd, Hv. reflexivity. }
  rewrite Heq. done.
Qed.

(** C7, at a first delivery that the platform answers with an animation:
    the video went out, the handler raised and the cache is still
    empty. *)
Lemma delivery_without_video_is_not_cached_witness :
  _process_video MainTexts.animation_env sample_update sample_media empty_state
  = (Raise AttributeError,
     add_call
       (CallReplyVideo (ByUrl "https://cdn/360")
          (media_caption MainTexts.animation_env sample_media))
       empty_state)
  ∧ tg_video_cache
      (_process_video MainTexts.animation_env sample_update sample_media
         empty_state).2 !! original_url sample_media
    = None
  ∧ tg_video_cache
      (_process_video MainTexts.animation_env sample_update sample_media
         empty_state).2
    = ∅.
Proof.
  apply (delivery_without_video_is_not_cached MainTexts.animation_env
           sample_update sample_media empty_state sample_message
           MainTexts.animation_message); reflexivity.
Defined.

End MainFacts.

(** * The parser and the handlers together *)
Module PipelineFacts.
Import Re Pytube Youtube.
Local Open Scope list_scope.

(** C4, as the code has it: the full-quality url of a Video from
    [_parse] is always set, to the url of the highest-resolution stream,
    so it equals the delivery url when that stream is the one delivered;
    it is [_process_video] that tells the two cases apart and adds the
    note with the original link only when the two urls differ. *)
Theorem full_quality_always_set TG_FILE_LIMIT pytube_YouTube m q v :
  produces TG_FILE_LIMIT pytube_YouTube m q v →
  ∃ best, get_highest_resolution q = Some best
    ∧ Medias.max_quality_url v = Some (url best)
    ∧ (Medias.url v = url best →
       Medias.max_quality_url v = Some (Medias.url v))
    ∧ ∀ env,
        (Medias.url v = url best → Main.extra_caption env v = "")
        ∧ (Medias.url v ≠ url best → url best ≠ "" →
           Main.extra_caption env v
           = Main.str_format env (Main.gettext env Main.oversize_note)
               [("url", url best)]).
Proof.
  intros Hp.
  destruct (YoutubeFacts.produces_inv _ _ _ _ _ Hp) as (best & Hb & _ & Hu & Hm).
  exists best. split; [done|]. split; [done|]. split.
  - intros ->. done.
  - intros env. unfold Main.extra_caption. rewrite Hm. split.
    + intros Heq. rewrite bool_decide_false; [done|]. intros [_ Hne].
      by rewrite Heq in Hne.
    + intros Hne Hnonempty. rewrite bool_decide_true; [done|].
      split; [done|]. by intros Heq.
Qed.

(** C4, at a video with one stream that fits: the full-quality url is
    set and is the delivery url. *)
Lemma full_quality_always_set_witness :
  ∃ best, get_highest_resolution one_stream = Some best
    ∧ Some "https://cdn/720" = Some (url best)
    ∧ ("https://cdn/720" = url best →
       Some "https://cdn/720" = Some "https://cdn/720")
    ∧ ∀ env,
        ("https://cdn/720" = url best →
         Main.extra_caption env
           (sample_video "https://cdn/720" "https://cdn/720") = "")
        ∧ ("https://cdn/720" ≠ url best → url best ≠ "" →
           Main.extra_caption env
             (sample_video "https://cdn/720" "https://cdn/720")
           = Main.str_format env (Main.gettext env Main.oversize_note)
               [("url", url best)]).
Proof.
  apply (full_quality_always_set twenty_MB
           (fun _ => Ok (video_of one_stream)) short_link_match one_stream
           (sample_video "https://cdn/720" "https://cdn/720")).
  by apply YoutubeFacts.produces_sample.
Defined.

(** C4 as the specification words it fails: for a video with one stream,
    within the ceiling, the Video carries a full-quality url equal to its
    delivery url. *)
Lemma full_quality_only_when_different_fails :
  ¬ full_quality_only_when_different twenty_MB
      (fun _ => Ok (video_of one_stream)).
Proof.
  intros H.
  apply (H short_link_match one_stream
           (sample_video "https://cdn/720" "https://cdn/720")
           "https://cdn/720").
  - by apply YoutubeFacts.produces_sample.
  - reflexivity.
  - reflexivity.
Qed.

End PipelineFacts.

(** * The url shapes of the YouTube parser *)
Module ReFacts.
Import Re ReSem Youtube.
Local Open Scope list_scope.

Lemma app_cons c (a b : string) : String c a +:+ b = String c (a +:+ b).
Proof. reflexivity. Qed.

Lemma app_nil_l (b : string) : "" +:+ b = b.
Proof. reflexivity. Qed.

Lemma length_append (a b : string) :
  String.length (a +:+ b) = (String.length a + String.length b)%nat.
Proof.
  induction a as [|c a IH]; [done|].
  rewrite app_cons. simpl. by rewrite IH.
Qed.

Lemma substring_prefix (w rest : string) :
  substring 0 (String.length w) (w +:+ rest) = w.
Proof.
  induction w as [|c w IH].
  - rewrite app_nil_l. by destruct rest.
  - rewrite app_cons. simpl. by rewrite IH.
Qed.

Lemma consumed_app (w rest : string) : consumed (w +:+ rest) rest = w.
Proof.
  unfold consumed. rewrite length_append.
  replace (String.length w + String.length rest - String.length rest)%nat
    with (String.length w) by lia.
  apply substring_prefix.
Qed.

Lemma append_assoc (a b c : string) : (a +:+ b) +:+ c = a +:+ (b +:+ c).
Proof.
  induction a as [|x a IH]; [done|]. rewrite !app_cons. by rewrite IH.
Qed.

Lemma strip_prefix_Some p s rest :
  strip_prefix p s = Some rest ↔ s = p +:+ rest.
Proof.
  revert s. induction p as [|a p IH]; intros s; simpl.
  - split; [by intros [= ->]|by intros ->].
  - destruct s as [|b s]; [done|].
    destruct (decide (a = b)) as [->|Hne].
    + rewrite IH. split; [by intros ->|by intros [= ->]].
    + split; [done|]. intros [= -> _]. done.
Qed.

(** ** The matcher against the reading of the patterns *)

Lemma plus_k_inv {X} cls s (k : string → option X) x :
  plus_k cls s k = Some x →
  ∃ w rest, s = w +:+ rest ∧ w ≠ "" ∧ all_chars cls w = true
    ∧ k rest = Some x.
Proof.
  revert x. induction s as [|c s IH]; intros x; simpl; [done|].
  destruct (cls c) eqn:Hc; [|done].
  destruct (plus_k cls s k) as [y|] eqn:Hp.
  - intros [= <-]. destruct (IH y eq_refl) as (w & rest & -> & _ & Hw & Hk).
    exists (String c w), rest. simpl. rewrite Hc, Hw. done.
  - intros Hk. exists (String c ""), s. simpl. by rewrite Hc.
Qed.

Lemma run_sound {X} r s g (k : string → list (string * string) → option X) x :
  run r s g k = Some x →
  ∃ w rest g', s = w +:+ rest ∧ matches r w g' ∧ k rest (g' ++ g) = Some x.
Proof.
  revert s g k x. induction r as [p| |cls|r IH|r1 IH1 r2 IH2|r1 IH1 r2 IH2|name r IH];
    intros s g k x; simpl.
  - destruct (strip_prefix p s) as [rest|] eqn:Hs; [|done].
    apply strip_prefix_Some in Hs as ->. intros Hk.
    exists p, rest, []. split; [done|]. split; [apply m_lit|done].
  - destruct s as [|c rest]; [done|].
    destruct (decide (c = newline)); [done|]. intros Hk.
    exists (String c ""), rest, []. split; [done|].
    split; [by apply m_any|done].
  - intros Hp. apply plus_k_inv in Hp as (w & rest & -> & Hw & Hall & Hk).
    exists w, rest, []. split; [done|]. split; [by apply m_plus|done].
  - destruct (run r s g k) as [y|] eqn:Hr.
    + intros [= ->]. apply IH in Hr as (w & rest & g' & -> & Hm & Hk).
      exists w, rest, g'. split; [done|]. split; [by apply m_opt_some|done].
    + intros Hk. exists "", s, []. split; [done|]. split; [apply m_opt_none|done].
  - destruct (run r1 s g k) as [y|] eqn:Hr.
    + intros [= ->]. apply IH1 in Hr as (w & rest & g' & -> & Hm & Hk).
      exists w, rest, g'. split; [done|]. split; [by apply m_alt_l|done].
    + intros Hr2. apply IH2 in Hr2 as (w & rest & g' & -> & Hm & Hk).
      exists w, rest, g'. split; [done|]. split; [by apply m_alt_r|done].
  - intros Hr. apply IH1 in Hr as (w1 & rest1 & g1 & -> & Hm1 & Hr).
    apply IH2 in Hr as (w2 & rest & g2 & -> & Hm2 & Hk).
    exists (w1 +:+ w2), rest, (g2 ++ g1). rewrite append_assoc.
    split; [done|]. split; [by apply m_cat|]. by rewrite <- app_assoc.
  - intros Hr. apply IH in Hr as (w & rest & g' & -> & Hm & Hk).
    rewrite consumed_app in Hk.
    exists w, rest, ((name, w) :: g'). split; [done|].
    split; [by apply m_named|done].
Qed.

Lemma plus_k_greedy {X} cls w rest (k : string → option X) :
  w ≠ "" → all_chars cls w = true → stops cls rest = true →
  is_Some (k rest) →
  plus_k cls (w +:+ rest) k = k rest.
Proof.
  intros Hne Hall Hstop [x Hk]. induction w as [|c w IH]; [done|].
  rewrite app_cons. simpl in *. apply andb_true_iff in Hall as [-> Hall].
  destruct w as [|c' w].
  - rewrite app_nil_l.
    destruct rest as [|d rest]; simpl; [done|].
    simpl in Hstop. apply negb_true_iff in Hstop. by rewrite Hstop.
  - rewrite IH by done. by rewrite Hk.
Qed.

Ltac case_elem H :=
  repeat (apply elem_of_cons in H; destruct H as [->|H]);
  try (apply elem_of_nil in H; destruct H).

Ltac inv_matches :=
  repeat match goal with
  | H : matches (Lit _) _ _ |- _ => inversion H; subst; clear H
  | H : matches AnyChar _ _ |- _ => inversion H; subst; clear H
  | H : matches (Opt _) _ _ |- _ => inversion H; subst; clear H
  | H : matches (Alt _ _) _ _ |- _ => inversion H; subst; clear H
  | H : matches (Cat _ _) _ _ |- _ => inversion H; subst; clear H
  end.

Lemma matches_cat_inv r1 r2 w g :
  matches (Cat r1 r2) w g →
  ∃ w1 w2 g1 g2, w = w1 +:+ w2 ∧ g = g2 ++ g1
    ∧ matches r1 w1 g1 ∧ matches r2 w2 g2.
Proof. intros H. inversion H; subst. by eauto 10. Qed.

(** A match of the id group at the end of a pattern. *)
Lemma matches_id_group w g :
  matches (Named "id" (Plus word_or_dash)) w g →
  g = [("id", w)] ∧ w ≠ "" ∧ all_chars word_or_dash w = true.
Proof.
  intros H. inversion H; subst.
  match goal with Hp : matches (Plus _) _ _ |- _ => inversion Hp; subst end.
  done.
Qed.

Lemma matches_REG_EXPS r w g :
  r ∈ REG_EXPS → matches r w g →
  ∃ pre yt_id, w = pre +:+ yt_id ∧ g = [("id", yt_id)]
    ∧ yt_id ≠ "" ∧ all_chars word_or_dash yt_id = true.
Proof.
  intros Hr Hm. unfold REG_EXPS, scheme in Hr. case_elem Hr.
  - apply matches_cat_inv in Hm as (ws & w1 & gs & g1 & -> & -> & Hs & H1).
    apply matches_cat_inv in H1 as (wa & wi & ga & gi & -> & -> & Ha & Hi).
    apply matches_id_group in Hi as (-> & Hne & Hall).
    exists (ws +:+ wa), wi. rewrite append_assoc.
    split; [done|]. split; [|done].
    inv_matches; reflexivity.
  - apply matches_cat_inv in Hm as (ws & w1 & gs & g1 & -> & -> & Hs & H1).
    apply matches_cat_inv in H1 as (ww & w2 & gw & g2 & -> & -> & Hw & H2).
    apply matches_cat_inv in H2 as (wl & wi & gl & gi & -> & -> & Hl & Hi).
    apply matches_id_group in Hi as (-> & Hne & Hall).
    exists (ws +:+ ww +:+ wl), wi. rewrite !append_assoc.
    split; [done|]. split; [|done].
    inv_matches; reflexivity.
Qed.

Lemma first_match_Some rs link m :
  first_match rs link = Some m → ∃ r, r ∈ rs ∧ re_match r link = Some m.
Proof.
  induction rs as [|r rs IH]; simpl; [done|].
  destruct (re_match r link) as [m'|] eqn:Hr.
  - intros [= ->]. exists r. split; [apply elem_of_cons; by left|done].
  - intros H. destruct (IH H) as (r' & Hin & Hm).
    exists r'. split; [apply elem_of_cons; by right|done].
Qed.

(** X1: every match of [REG_EXPS] on an ASCII link has its id group, so
    [_parse] never takes its [IndexError] exit on one: the id is not
    empty, is made of word characters and dashes, and ends the matched
    text, which starts the link. *)
Theorem accepted_link_has_id link m :
  ascii_only link = true →
  match_link link = Some m →
  ∃ pre yt_id rest,
    link = m_group0 m +:+ rest
    ∧ m_group0 m = pre +:+ yt_id
    ∧ group m "id" = Ok yt_id
    ∧ yt_id ≠ ""
    ∧ all_chars word_or_dash yt_id = true.
Proof.
  intros _ Hm. apply first_match_Some in Hm as (r & Hr & Hm).
  unfold re_match in Hm.
  apply run_sound in Hm as (w & rest & g & -> & Hw & [= <-]).
  destruct (matches_REG_EXPS r w g Hr Hw) as (pre & yt_id & -> & -> & Hne & Hall).
  exists pre, yt_id, rest. simpl. rewrite consumed_app. done.
Qed.

Ltac solve_shape Hne Hall Hstop :=
  unfold match_link, REG_EXPS, first_match, re_match, scheme;
  rewrite ?app_cons, ?app_nil_l;
  simpl run;
  rewrite plus_k_greedy by (done || by eexists);
  rewrite consumed_app;
  do 2 f_equal;
  match goal with |- consumed _ ?r = ?w => exact (consumed_app w r) end.

(** X2: on ASCII links, each url shape the comments of [REG_EXPS] list
    is accepted, with or without scheme, and the id is captured whole:
    up to the first character that is neither a word character nor a
    dash, or to the end of the link; what follows the id (a query
    parameter, say) is no part of the match. *)
Theorem listed_shapes_are_accepted sch host yt_id rest :
  ascii_only (sch +:+ host +:+ yt_id +:+ rest) = true →
  sch ∈ schemes → host ∈ hosts →
  yt_id ≠ "" → all_chars word_or_dash yt_id = true →
  stops word_or_dash rest = true →
  match_link (sch +:+ host +:+ yt_id +:+ rest)
  = Some {| m_group0 := sch +:+ host +:+ yt_id;
            m_groups := [("id", yt_id)] |}.
Proof.
  intros _ Hs Hh Hne Hall Hstop. unfold schemes in Hs. unfold hosts in Hh.
  case_elem Hs; case_elem Hh; solve_shape Hne Hall Hstop.
Qed.

(** X3: the dot of [youtu.be] is not escaped in the pattern: on ASCII
    links any character but a line break is accepted in its place. *)
Theorem any_char_for_the_dot sch c yt_id rest :
  ascii_only (sch +:+ "youtu" +:+ String c "be/" +:+ yt_id +:+ rest) = true →
  sch ∈ schemes → c ≠ newline →
  yt_id ≠ "" → all_chars word_or_dash yt_id = true →
  stops word_or_dash rest = true →
  match_link (sch +:+ "youtu" +:+ String c "be/" +:+ yt_id +:+ rest)
  = Some {| m_group0 := sch +:+ "youtu" +:+ String c "be/" +:+ yt_id;
            m_groups := [("id", yt_id)] |}.
Proof.
  intros _ Hs Hc Hne Hall Hstop. unfold schemes in Hs.
  case_elem Hs;
    unfold match_link, REG_EXPS, first_match, re_match, scheme;
    rewrite ?app_cons, ?app_nil_l;
    simpl run;
    destruct (decide ("b"%char = c)); simpl;
    rewrite decide_False by done;
    rewrite plus_k_greedy by (done || by eexists);
    rewrite consumed_app;
    do 2 f_equal;
    match goal with |- consumed _ ?r = ?w => exact (consumed_app w r) end.
Qed.

(** At the short link, followed by a query parameter. *)
Lemma accepted_link_has_id_witness :
  ∃ pre yt_id rest,
    "https://youtu.be/TCrP1SE2DkY?t=10" = "https://youtu.be/TCrP1SE2DkY" +:+ rest
    ∧ "https://youtu.be/TCrP1SE2DkY" = pre +:+ yt_id
    ∧ group short_link_match "id" = Ok yt_id
    ∧ yt_id ≠ ""
    ∧ all_chars word_or_dash yt_id = true.
Proof.
  apply (accepted_link_has_id "https://youtu.be/TCrP1SE2DkY?t=10"
           short_link_match); reflexivity.
Defined.

Lemma listed_shapes_are_accepted_witness :
  match_link "https://www.youtube.com/watch?v=TCrP1SE2DkY&t=10"
  = Some {| m_group0 := "https://www.youtube.com/watch?v=TCrP1SE2DkY";
            m_groups := [("id", "TCrP1SE2DkY")] |}.
Proof.
  apply (listed_shapes_are_accepted "https://" "www.youtube.com/watch?v="
           "TCrP1SE2DkY" "&t=10").
  - reflexivity.
  - unfold schemes. do 2 apply list_elem_of_further. apply list_elem_of_here.
  - unfold hosts. apply list_elem_of_further. apply list_elem_of_here.
  - discriminate.
  - reflexivity.
  - reflexivity.
Defined.

Lemma any_char_for_the_dot_witness :
  match_link "youtu-be/TCrP1SE2DkY"
  = Some {| m_group0 := "youtu-be/TCrP1SE2DkY";
            m_groups := [("id", "TCrP1SE2DkY")] |}.
Proof.
  apply (any_char_for_the_dot "" "-"%char "TCrP1SE2DkY" "").
  - reflexivity.
  - unfold schemes. apply list_elem_of_here.
  - discriminate.
  - discriminate.
  - reflexivity.
  - reflexivity.
Defined.

End ReFacts.

(** * Edge behaviour of the YouTube parser *)
Module ParserEdges.
Import Re Pytube Youtube.
Local Open Scope list_scope.

Section Parsing.

Variable TG_FILE_LIMIT : Z.
Variable pytube_YouTube : string → result YouTube.

Local Abbreviation deliverable := (deliverable TG_FILE_LIMIT).
Local Abbreviation select_stream := (select_stream TG_FILE_LIMIT).
Local Abbreviation delivery_stream := (delivery_stream TG_FILE_LIMIT).
Local Abbreviation _parse := (_parse TG_FILE_LIMIT pytube_YouTube).
Local Abbreviation produces := (produces TG_FILE_LIMIT pytube_YouTube).

(** X4: [_parse] returns nothing or one media, a YouTube Video given by url
    (no upload), with its full-quality url set. *)
Theorem parse_returns_at_most_one_video m medias :
  _parse m = Ok medias →
  medias = []
  ∨ ∃ v, medias = [Medias.MVideo v]
      ∧ Medias.type v = Medias.YOUTUBE
      ∧ Medias.file_input v = None
      ∧ is_Some (Medias.max_quality_url v)
      ∧ ∃ yt_id, group m "id" = Ok yt_id
          ∧ Medias.original_url v = canonical_url yt_id.
Proof.
  unfold Youtube._parse. intros Hp.
  destruct (group m "id") as [yt_id|e]; cycle 1.
  { destruct (is_IndexError e); [|done]. injection Hp as <-. by left. }
  destruct (pytube_YouTube (canonical_url yt_id)) as [yt|]; [|done].
  simpl in Hp. destruct (streams yt) as [q|]; [|done]. simpl in Hp.
  destruct (get_highest_resolution q) as [best|]; [|done]. simpl in Hp.
  destruct (author yt) as [a|ea]; simpl in Hp; cycle 1.
  { destruct (is_PytubeError ea); [|done]. injection Hp as <-. by left. }
  destruct (title yt) as [c|ec]; simpl in Hp; cycle 1.
  { destruct (is_PytubeError ec); [|done]. injection Hp as <-. by left. }
  destruct (thumbnail_url yt) as [t|et]; simpl in Hp; cycle 1.
  { destruct (is_PytubeError et); [|done]. injection Hp as <-. by left. }
  injection Hp as <-. right. eexists. split; [done|]. simpl.
  repeat split; try done. by eexists.
Qed.

(** X5: a video without a progressive stream that has a resolution (one
    without streams at all, for one) makes [_parse] raise
    [AttributeError]: [get_highest_resolution] gives [None] and its url
    is asked for. *)
Theorem no_progressive_stream_raises m yt_id yt q :
  group m "id" = Ok yt_id →
  pytube_YouTube (canonical_url yt_id) = Ok yt →
  streams yt = Ok q →
  (∀ s, s ∈ q → is_progressive s = true → resolution s = None) →
  _parse m = Raise AttributeError.
Proof.
  intros Hg Hyt Hq Hno. unfold Youtube._parse.
  rewrite Hg, Hyt. simpl. rewrite Hq. simpl.
  destruct (get_highest_resolution q) as [best|] eqn:Hb; [|done].
  destruct (YoutubeFacts.get_highest_resolution_spec q best Hb)
    as (Hin & Hp & [r Hr] & _).
  rewrite (Hno best Hin Hp) in Hr. done.
Qed.

(** X6: an error raised while the Video is built, by [yt.author],
    [yt.title] or [yt.thumbnail_url], ends [_parse] with the empty list
    when it is a pytube error and leaves [_parse] as it is otherwise. *)
Theorem building_error_is_caught_or_raised m yt_id yt q best e :
  group m "id" = Ok yt_id →
  pytube_YouTube (canonical_url yt_id) = Ok yt →
  streams yt = Ok q →
  get_highest_resolution q = Some best →
  YoutubeErrors.building_fails yt e →
  _parse m = if is_PytubeError e then Ok [] else Raise e.
Proof.
  intros Hg Hyt Hq Hb Hf. unfold Youtube._parse.
  rewrite Hg, Hyt. simpl. rewrite Hq. simpl. rewrite Hb. simpl.
  destruct Hf as [Ha|[([a Ha] & Ht)|([a Ha] & [c Hc] & Ht)]].
  - rewrite Ha. simpl. by destruct (is_PytubeError e).
  - rewrite Ha, Ht. simpl. by destruct (is_PytubeError e).
  - rewrite Ha, Hc, Ht. simpl. by destruct (is_PytubeError e).
Qed.

(** X7: the stream a Video delivers is a candidate within the ceiling, or,
    when no candidate is, the highest-resolution stream; its mime type is
    the Video's, and its resolution is never above that of the stream
    behind the full-quality url. *)
Theorem delivered_fits_or_is_best m q v :
  produces m q v →
  ∃ s best,
    delivery_stream q = Some s
    ∧ get_highest_resolution q = Some best
    ∧ Medias.url v = url s
    ∧ Medias.mime_type v = mime_type s
    ∧ Medias.max_quality_url v = Some (url best)
    ∧ ((s ∈ candidates q ∧ deliverable s)
       ∨ (s = best ∧ ∀ c, c ∈ candidates q → ¬ deliverable c))
    ∧ (res_key s <= res_key best)%nat.
Proof.
  intros (yt_id & yt & Hg & Hyt & Hq & Hp).
  destruct (YoutubeFacts.parse_inv _ _ m _ v Hp) as
    (yt_id' & yt' & q' & best & Hg' & Hyt' & Hq' & Hb & _ & Hu & Hmt & Hm & _).
  { apply list_elem_of_singleton. reflexivity. }
  rewrite Hg in Hg'. injection Hg' as <-.
  rewrite Hyt in Hyt'. injection Hyt' as <-.
  rewrite Hq in Hq'. injection Hq' as <-.
  exists (select_stream (candidates q) best), best.
  split. { unfold Youtube.delivery_stream. by rewrite Hb. }
  do 4 (split; [done|]).
  destruct (YoutubeFacts.get_highest_resolution_spec q best Hb)
    as (_ & _ & _ & Hmax).
  destruct (decide (Exists deliverable (candidates q))) as [Hex|Hno].
  - apply Exists_exists in Hex.
    destruct (YoutubeFacts.select_stream_split TG_FILE_LIMIT
                (candidates q) best Hex) as (l1 & l2 & Hl & Hd & _).
    assert (Hin : select_stream (candidates q) best ∈ candidates q).
    { rewrite Hl at 2. apply YoutubeFacts.elem_of_middle. }
    split; [by left|].
    apply YoutubeFacts.elem_of_candidates in Hin as (Hin & _ & Hprog & _).
    by apply Hmax.
  - assert (Hnone : ∀ c, c ∈ candidates q → ¬ deliverable c).
    { intros c Hc Hd. apply Hno. apply Exists_exists. by exists c. }
    rewrite (YoutubeFacts.select_stream_none TG_FILE_LIMIT _ best Hnone).
    split; [by right|]. lia.
Qed.

End Parsing.

Lemma no_progressive_stream_raises_witness :
  _parse twenty_MB (fun _ => Ok (video_of [])) short_link_match
  = Raise AttributeError.
Proof.
  apply (no_progressive_stream_raises twenty_MB
           (fun _ => Ok (video_of [])) short_link_match
           "TCrP1SE2DkY" (video_of []) []); try reflexivity.
  intros s Hs. by apply elem_of_nil in Hs.
Defined.

Lemma parse_returns_at_most_one_video_witness :
  [Medias.MVideo (sample_video "https://cdn/360" "https://cdn/720")] = []
  ∨ ∃ v, [Medias.MVideo (sample_video "https://cdn/360" "https://cdn/720")]
         = [Medias.MVideo v]
      ∧ Medias.type v = Medias.YOUTUBE
      ∧ Medias.file_input v = None
      ∧ is_Some (Medias.max_quality_url v)
      ∧ ∃ yt_id, group short_link_match "id" = Ok yt_id
          ∧ Medias.original_url v = canonical_url yt_id.
Proof.
  apply (parse_returns_at_most_one_video twenty_MB
           (fun _ => Ok (video_of three_sizes)) short_link_match).
  reflexivity.
Defined.

Lemma building_error_is_caught_or_raised_witness :
  _parse twenty_MB
    (fun _ => Ok {| streams := Ok one_stream; author := Ok "author";
                    title := Raise (PytubeError ExtractError);
                    thumbnail_url := Ok "" |})
    short_link_match
  = Ok [].
Proof.
  apply (building_error_is_caught_or_raised twenty_MB _ short_link_match
           "TCrP1SE2DkY"
           {| streams := Ok one_stream; author := Ok "author";
              title := Raise (PytubeError ExtractError);
              thumbnail_url := Ok "" |}
           one_stream (mp4 "https://cdn/720" 9000000 720)
           (PytubeError ExtractError)); try reflexivity.
  right. left. split; [by eexists|reflexivity].
Defined.

Lemma delivered_fits_or_is_best_witness :
  ∃ s best,
    delivery_stream twenty_MB three_sizes = Some s
    ∧ get_highest_resolution three_sizes = Some best
    ∧ "https://cdn/360" = url s
    ∧ "video/mp4" = mime_type s
    ∧ Some "https://cdn/720" = Some (url best)
    ∧ ((s ∈ candidates three_sizes ∧ deliverable twenty_MB s)
       ∨ (s = best
          ∧ ∀ c, c ∈ candidates three_sizes → ¬ deliverable twenty_MB c))
    ∧ (res_key s <= res_key best)%nat.
Proof.
  apply (delivered_fits_or_is_best twenty_MB
           (fun _ => Ok (video_of three_sizes)) short_link_match
           three_sizes (sample_video "https://cdn/360" "https://cdn/720")).
  by apply YoutubeFacts.produces_sample.
Defined.

End ParserEdges.

(** * Edge behaviour of the message handlers *)
Module HandlerEdges.
Import Medias Main MainTexts MainFacts.
Local Open Scope list_scope.

Section Handlers.

Variable env : Env.

Local Abbreviation _process_video := (_process_video env).
Local Abbreviation _process_media_group := (_process_media_group env).
Local Abbreviation delivery := (delivery env).
Local Abbreviation link_parser := (link_parser env).
Local Abbreviation chosen_inline_query := (chosen_inline_query env).

(** With a message to reply to, the handler starts with its
    [reply_video] call. *)
Lemma process_video_first_call update media st m :
  effective_message update = Some m →
  ∃ rest, calls (_process_video update media st).2
          = calls st ++ video_call env media st :: rest.
Proof.
  intros Hm. unfold Main._process_video, try_exceptM, video_call.
  rewrite Hm. run_M. simpl.
  destruct (reply_video env m _ _ _ _ _) as [res|e]; simpl.
  - destruct (video res); simpl; by eexists.
  - destruct (is_BadRequest e); [|by eexists].
    destruct (effective_chat update) as [chat|]; [|by eexists].
    destruct (decide (chat = PRIVATE)); [|by eexists].
    destruct (reply_text env m _); simpl; rewrite <- app_assoc; by eexists.
Qed.

(** X8: after a delivery that succeeded, the next delivery of a media with
    the same original url, for whatever update, sends the handle the
    platform gave back, not the url or an upload. *)
Theorem cached_handle_is_reused update media st res v update' media' m' :
  delivery update media st = Ok res → video res = Some v →
  original_url media' = original_url media →
  effective_message update' = Some m' →
  let st1 := (_process_video update media st).2 in
  ∃ rest, calls (_process_video update' media' st1).2
          = calls st1
            ++ CallReplyVideo (ByHandle v) (media_caption env media') :: rest.
Proof.
  intros Hd Hv Ho Hm' st1.
  destruct (process_video_first_call update' media' st1 m' Hm') as [rest Hc].
  exists rest. rewrite Hc. unfold video_call, st1.
  rewrite (process_video_success _ _ _ _ _ _ Hd Hv). simpl.
  by rewrite Ho, lookup_insert_eq.
Qed.

(** X9: a delivery the platform refuses: a [BadRequest] in a private chat is
    answered with the text carrying the direct link and raised again; in
    any other chat, and for any other error in any chat, nothing but the
    video call is made and the error is raised. *)
Theorem refused_video_falls_back_to_link update media st m e :
  effective_message update = Some m →
  delivery update media st = Raise e →
  let tried := add_call (video_call env media st) st in
  (is_BadRequest e = false →
     _process_video update media st = (Raise e, tried))
  ∧ (is_BadRequest e = true → ∀ chat,
       effective_chat update = Some chat → chat ≠ PRIVATE →
       _process_video update media st = (Raise e, tried))
  ∧ (is_BadRequest e = true →
       effective_chat update = Some PRIVATE →
       succeeds (reply_text env m (direct_link_text env media)) →
       _process_video update media st
       = (Raise e,
          add_call (CallReplyText (direct_link_text env media)) tried)).
Proof.
  intros Hm Hd tried. unfold tried, video_call, direct_link_text.
  unfold Main.delivery in Hd. rewrite Hm in Hd.
  unfold Main._process_video, try_exceptM. rewrite Hm.
  run_M. simpl. rewrite Hd. split; [|split].
  - by intros ->.
  - intros -> chat -> Hne. by rewrite decide_False.
  - intros -> -> [r Hr]. simpl. by rewrite Hr.
Qed.

Lemma set_captions_raises c items e :
  set_captions c items = Raise e → e = AttributeError.
Proof.
  induction items as [|m rest IH]; simpl; [done|].
  destruct (im_frozen m); [by intros [= <-]|].
  destruct (set_captions c rest) as [rest'|e']; simpl; [done|].
  intros [= <-]. by apply IH.
Qed.

Lemma set_captions_ok group :
  Forall (fun i => im_frozen i = false) (input_medias group) →
  set_captions (mg_caption group) (input_medias group)
  = Ok (group_items group).
Proof.
  unfold group_items. induction 1 as [|m rest Hm _ IH]; simpl; [done|].
  rewrite Hm, IH. reflexivity.
Qed.

Lemma set_captions_frozen c items :
  Exists (fun i => im_frozen i = true) items →
  set_captions c items = Raise AttributeError.
Proof.
  induction 1 as [m rest Hm|m rest _ IH]; simpl.
  - by rewrite Hm.
  - destruct (im_frozen m); [done|]. by rewrite IH.
Qed.

(** X10: without a message to reply to, the two processors raise
    [AttributeError] and do nothing: no call, no change of the context. *)
Theorem no_message_no_delivery update st :
  (effective_message update = None →
     ∀ media, _process_video update media st = (Raise AttributeError, st))
  ∧ (message update = None →
     ∀ group, _process_media_group update group st
              = (Raise AttributeError, st)).
Proof.
  split.
  - intros Hm media. unfold Main._process_video, try_exceptM.
    rewrite Hm. by run_M.
  - intros Hm group. unfold Main._process_media_group. run_M.
    destruct (set_captions (mg_caption group) (input_medias group))
      as [items|e] eqn:Hs.
    + rewrite Hm. by run_M.
    + by rewrite (set_captions_raises _ _ _ Hs).
Qed.

(** X11: when every item of the group takes the assignment of its
    caption, the group goes out in one call, with as many items as the
    group has, the same medias in the same order, and the caption of the
    group on every item, whatever caption the item had. When an item
    refuses the assignment, the handler raises [AttributeError] before
    any call. *)
Theorem media_group_shares_caption update group st :
  (Forall (fun i => im_frozen i = false) (input_medias group) →
   ∀ m, message update = Some m →
   ∃ items,
     calls (_process_media_group update group st).2
     = calls st ++ [CallReplyMediaGroup items]
     ∧ List.length items = List.length (input_medias group)
     ∧ im_media <$> items = im_media <$> input_medias group
     ∧ Forall (fun i => im_caption i = mg_caption group) items
     ∧ (_process_media_group update group st).1
       = reply_media_group env m items ≫= (fun _ => Ok tt))
  ∧ (Exists (fun i => im_frozen i = true) (input_medias group) →
     _process_media_group update group st = (Raise AttributeError, st)).
Proof.
  split.
  - intros Hfree m Hm. exists (group_items group).
    unfold Main._process_media_group. run_M.
    rewrite (set_captions_ok group Hfree), Hm. run_M. simpl.
    split; [by destruct (reply_media_group env m (group_items group))|].
    unfold group_items. split; [by rewrite length_fmap|].
    split; [|split].
    + rewrite <- list_fmap_compose. by apply list_fmap_ext.
    + apply Forall_fmap, Forall_forall. by intros i _.
    + by destruct (reply_media_group env m _).
  - intros Hfrozen. unfold Main._process_media_group. run_M.
    by rewrite (set_captions_frozen _ _ Hfrozen).
Qed.

(** X12: when the registry resolves the links to no Video and no MediaGroup
    (to nothing at all, for one), [link_parser] ends normally having sent
    nothing; when the registry raises, [link_parser] raises the same
    error. In both cases the call to the registry is the only one. *)
Theorem nothing_resolved_nothing_sent update st :
  let links := message_links (effective_message update) in
  (∀ medias, Parser_parse env links = Ok medias →
     Forall (fun y => is_deliverable_media y = false) medias →
     link_parser update st = (Ok tt, add_call (CallParse links) st))
  ∧ (∀ e, Parser_parse env links = Raise e →
       link_parser update st = (Raise e, add_call (CallParse links) st)).
Proof.
  intros links. split.
  - intros medias Hp Hall. rewrite link_parser_unfold. fold links. simpl.
    rewrite Hp. by rewrite deliver_none.
  - intros e Hp. rewrite link_parser_unfold. fold links. simpl.
    by rewrite Hp.
Qed.

Lemma substring_length n k s :
  String.length (substring n k s) = Nat.min k (String.length s - n).
Proof.
  revert n k. induction s as [|c s IH]; intros n k.
  - destruct n, k; simpl; lia.
  - destruct n as [|n].
    + destruct k as [|k]; simpl; [done|]. rewrite IH. lia.
    + simpl. rewrite IH. done.
Qed.

Lemma substring_split n k s :
  (n + k <= String.length s)%nat →
  ∃ pre post, s = pre +:+ substring n k s +:+ post
    ∧ String.length pre = n.
Proof.
  revert n k. induction s as [|c s IH]; intros n k Hle; simpl in Hle.
  - assert (n = 0%nat) as -> by lia. assert (k = 0%nat) as -> by lia.
    by exists "", "".
  - destruct n as [|n].
    + destruct k as [|k].
      * by exists "", (String c s).
      * destruct (IH 0%nat k) as (pre & post & Hs & Hlen); [lia|].
        destruct pre; [|done]. exists "", post. split; [|done].
        simpl. rewrite ReFacts.app_nil_l in *. rewrite ReFacts.app_cons.
        by rewrite <- Hs.
    + destruct (IH n k) as (pre & post & Hs & Hlen); [lia|].
      exists (String c pre), post. split; [|simpl; lia].
      simpl. rewrite ReFacts.app_cons. by rewrite <- Hs.
Qed.

(** X13: the span of an entity is cut with the bounds of a slice: it is never
    longer than the entity says nor than what the text has left from its
    offset (empty beyond the end, no error), and for an entity inside
    the text it is the characters from its offset on, as many as its
    length. *)
Theorem span_stays_within_text txt e :
  String.length (span txt e)
  = Nat.min (Main.length e) (String.length txt - offset e)
  ∧ ((offset e + Main.length e <= String.length txt)%nat →
     ∃ pre post, txt = pre +:+ span txt e +:+ post
       ∧ String.length pre = offset e
       ∧ String.length (span txt e) = Main.length e).
Proof.
  unfold span. split; [apply substring_length|].
  intros Hle. destruct (substring_split _ _ _ Hle) as (pre & post & Hs & Hl).
  exists pre, post. split; [done|]. split; [done|].
  rewrite substring_length. lia.
Qed.

(** X14: a chosen inline result always ends normally and empties the
    temporary history; it touches neither the video cache nor the
    platform; it only ever adds to the end of the history, and adds
    nothing when the history is disabled or the result id is unknown. *)
Theorem chosen_result_clears_temp_history update st :
  (chosen_inline_query update st).1 = Ok tt
  ∧ temp_history (chosen_inline_query update st).2 = ∅
  ∧ tg_video_cache (chosen_inline_query update st).2 = tg_video_cache st
  ∧ calls (chosen_inline_query update st).2 = calls st
  ∧ history st `prefix_of` history (chosen_inline_query update st).2
  ∧ (is_history_enabled env update = false
     ∨ temp_history st !! result_id update = None →
     history (chosen_inline_query update st).2 = history st).
Proof.
  unfold Main.chosen_inline_query.
  destruct (temp_history st !! result_id update) as [v|] eqn:Hv; simpl.
  - destruct (is_history_enabled env update) eqn:He; simpl.
    + destruct (decide (v ∈ history st)); simpl;
        repeat split; try done;
        try (by apply prefix_app_r); try (intros [?|?]; done).
    + repeat split; done.
  - repeat split; done.
Qed.

End Handlers.

Lemma chosen_result_clears_temp_history_witness :
  history
    (chosen_inline_query (sample_env true [])
       {| effective_message := None; message := None;
          effective_chat := None; result_id := "unknown" |}
       (set_temp_history {[ "result-1" := sample_media ]} empty_state)).2
  = [].
Proof.
  apply (proj2 (proj2 (proj2 (proj2 (proj2
           (chosen_result_clears_temp_history (sample_env true [])
              {| effective_message := None; message := None;
                 effective_chat := None; result_id := "unknown" |}
              (set_temp_history {[ "result-1" := sample_media ]}
                 empty_state))))))).
  right. reflexivity.
Defined.

Lemma cached_handle_is_reused_witness :
  let st1 :=
    (_process_video (sample_env true []) sample_update sample_media
       empty_state).2 in
  ∃ rest,
    calls (_process_video (sample_env true []) sample_update sample_media
             st1).2
    = calls st1
      ++ CallReplyVideo (ByHandle sample_handle)
           (media_caption (sample_env true []) sample_media) :: rest.
Proof.
  apply (cached_handle_is_reused (sample_env true []) sample_update
           sample_media empty_state sent_message sample_handle
           sample_update sample_media sample_message); reflexivity.
Defined.

Lemma refused_video_falls_back_to_link_witness :
  _process_video (sample_env false []) sample_update sample_media empty_state
  = (Raise (BadRequest "Wrong file identifier/HTTP URL specified"),
     add_call
       (CallReplyText (direct_link_text (sample_env false []) sample_media))
       (add_call
          (video_call (sample_env false []) sample_media empty_state)
          empty_state)).
Proof.
  apply (proj2 (proj2 (refused_video_falls_back_to_link (sample_env false [])
                         sample_update sample_media empty_state
                         sample_message
                         (BadRequest "Wrong file identifier/HTTP URL specified")
                         eq_refl eq_refl))).
  - reflexivity.
  - reflexivity.
  - by eexists.
Defined.

Lemma no_message_no_delivery_witness :
  _process_video (sample_env true [])
    {| effective_message := None; message := None;
       effective_chat := None; result_id := "" |}
    sample_media empty_state
  = (Raise AttributeError, empty_state).
Proof.
  apply (proj1 (no_message_no_delivery (sample_env true [])
                  {| effective_message := None; message := None;
                     effective_chat := None; result_id := "" |}
                  empty_state)).
  reflexivity.
Defined.

Lemma media_group_shares_caption_witness :
  (∃ items,
     calls (_process_media_group (sample_env true []) sample_update
              Inline.sample_group empty_state).2
     = calls empty_state ++ [CallReplyMediaGroup items]
     ∧ List.length items = List.length (input_medias Inline.sample_group)
     ∧ im_media <$> items = im_media <$> input_medias Inline.sample_group
     ∧ Forall (fun i => im_caption i = mg_caption Inline.sample_group) items
     ∧ (_process_media_group (sample_env true []) sample_update
          Inline.sample_group empty_state).1
       = reply_media_group (sample_env true []) sample_message items
         ≫= (fun _ => Ok tt))
  ∧ _process_media_group (sample_env true []) sample_update
      Inline.frozen_group empty_state
    = (Raise AttributeError, empty_state).
Proof.
  split.
  - apply (proj1 (media_group_shares_caption (sample_env true [])
                    sample_update Inline.sample_group empty_state)).
    + repeat constructor.
    + reflexivity.
  - apply (proj2 (media_group_shares_caption (sample_env true [])
                    sample_update Inline.frozen_group empty_state)).
    apply Exists_cons_tl, Exists_cons_hd. reflexivity.
Defined.

Lemma nothing_resolved_nothing_sent_witness :
  link_parser (sample_env true [MPlain "https://example.org/a"])
    sample_update empty_state
  = (Ok tt,
     add_call (CallParse (message_links (effective_message sample_update)))
       empty_state).
Proof.
  apply (proj1 (nothing_resolved_nothing_sent
                  (sample_env true [MPlain "https://example.org/a"])
                  sample_update empty_state)
           [MPlain "https://example.org/a"]).
  - reflexivity.
  - constructor; [reflexivity|constructor].
Defined.

Lemma span_stays_within_text_witness :
  ∃ pre post,
    text sample_message
    = pre +:+ "youtu.be/TCrP1SE2DkY" +:+ post
    ∧ String.length pre = 4%nat
    ∧ String.length "youtu.be/TCrP1SE2DkY" = 20%nat.
Proof.
  apply (proj2 (span_stays_within_text (text sample_message)
                  {| e_type := URL; offset := 4; length := 20 |})).
  simpl. lia.
Defined.

End HandlerEdges.

(** * The inline handlers *)
Module InlineFacts.
Import Medias Main Inline.
Local Open Scope list_scope.

Ltac run_MI :=
  repeat (cbn [mbind mret MI_bind MI_ret iget imodify ilift fst snd] in *;
          unfold mbind, mret, MI_bind, MI_ret, iget, imodify, ilift,
                 call_answer, call_save_report, call_parse in * ).

Lemma videos_of_MVideo (l : list Video) : videos_of (MVideo <$> l) = l.
Proof.
  unfold videos_of. induction l as [|v l IH]; [done|].
  rewrite fmap_cons. simpl. f_equal. exact IH.
Qed.

Lemma videos_of_history_entries (l : list Video) :
  videos_of (history_entry <$> l) = [].
Proof.
  unfold videos_of. induction l as [|d l IH]; [done|].
  rewrite fmap_cons. simpl. exact IH.
Qed.

Lemma elem_of_videos_of v medias : v ∈ videos_of medias ↔ MVideo v ∈ medias.
Proof.
  unfold videos_of. rewrite list_elem_of_omap. split.
  - intros (x & Hx & Hv). destruct x; try done. by injection Hv as ->.
  - intros Hin. by exists (MVideo v).
Qed.

Lemma remember_notin t pairs k :
  (∀ p, p ∈ pairs → id p.2 ≠ k) → remember t pairs !! k = t !! k.
Proof.
  revert t. induction pairs as [|p ps IH]; intros t Hne; [done|].
  unfold remember in *. simpl. rewrite IH.
  - apply lookup_insert_ne. apply Hne. apply elem_of_cons. by left.
  - intros q Hq. apply Hne. apply elem_of_cons. by right.
Qed.

Lemma remember_lookup t pairs i p :
  pairs !! i = Some p →
  (∀ j q, pairs !! j = Some q → id q.2 = id p.2 → j = i) →
  remember t pairs !! id p.2 = Some p.1.
Proof.
  revert t i. induction pairs as [|p0 ps IH]; intros t i Hi Huniq; [done|].
  destruct i as [|i].
  - injection Hi as ->. change (remember t (p :: ps))
      with (remember (<[id p.2 := p.1]> t) ps).
    rewrite remember_notin; [apply lookup_insert_eq|].
    intros q Hq Heq. apply list_elem_of_lookup in Hq as [j Hj].
    by specialize (Huniq (S j) q Hj Heq).
  - change (remember t (p0 :: ps))
      with (remember (<[id p0.2 := p0.1]> t) ps).
    apply (IH _ i); [done|].
    intros j q Hj Heq. specialize (Huniq (S j) q Hj Heq). lia.
Qed.

Section Handlers.

Variable ienv : InlineEnv.

Local Abbreviation inline_query := (inline_query ienv).
Local Abbreviation results_for := (results_for ienv).
Local Abbreviation search_text := (search_text ienv).

Lemma results_for_lookup d vs i :
  results_for d vs !! i
  = (fun v => content ienv (uuid4 ienv (d + i)) v) <$> vs !! i.
Proof.
  unfold Inline.results_for.
  exact (list_lookup_imap
           (fun i v => content ienv (uuid4 ienv (d + i)) v) vs i).
Qed.

Lemma results_for_length d vs :
  List.length (results_for d vs) = List.length vs.
Proof. unfold Inline.results_for. apply length_imap. Qed.

Lemma zip_results_lookup d vs i :
  zip vs (results_for d vs) !! i
  = (fun v => (v, content ienv (uuid4 ienv (d + i)) v)) <$> vs !! i.
Proof.
  rewrite lookup_zip_with, results_for_lookup.
  by destruct (vs !! i).
Qed.

(** An empty query. *)
Lemma inline_query_empty u st :
  search_text u = "" →
  inline_query u st
  = (answer ienv (history_answer ienv []),
     {| ctx := ctx st;
        drawn := drawn st + 0;
        sent := sent st ++ [Answered (history_answer ienv [])] |}).
Proof.
  unfold Inline.search_text. intros Hq.
  unfold Inline.inline_query. rewrite Hq. simpl.
  unfold send_history, inline_query_video_from_media. run_MI. simpl.
  rewrite videos_of_history_entries. reflexivity.
Qed.

(** A search resolved to nothing. *)
Lemma inline_query_nothing u st :
  search_text u ≠ "" →
  Parser_parse (env ienv) [search_text u] = Ok [] →
  inline_query u st
  = let c := add_call (CallParse [search_text u]) (ctx st) in
    let st1 :=
      {| ctx := c; drawn := drawn st;
         sent := sent st ++ [SavedReport (search_report (search_text u) [])] |} in
    match save_report ienv (search_report (search_text u) []) with
    | Ok uid =>
        (answer ienv (search_answer ienv [] uid),
         add_sent (Answered (search_answer ienv [] uid)) st1)
    | Raise e => (Raise e, st1)
    end.
Proof.
  unfold Inline.search_text. intros Hq Hp.
  unfold Inline.inline_query. rewrite decide_False by done.
  run_MI. simpl. rewrite Hp. simpl.
  unfold search_report. simpl.
  by destruct (save_report ienv _).
Qed.

(** A search resolved to some medias. *)
Lemma inline_query_found u st m medias :
  search_text u ≠ "" →
  Parser_parse (env ienv) [search_text u] = Ok (m :: medias) →
  inline_query u st
  = let vs := videos_of (m :: medias) in
    let rs := results_for (drawn st) vs in
    let c := add_call (CallParse [search_text u]) (ctx st) in
    let c1 :=
      if is_history_enabled (env ienv) (update u)
      then set_temp_history (remember (temp_history c) (zip vs rs)) c
      else c in
    let r := search_report (search_text u) (m :: medias) in
    let st1 :=
      {| ctx := c1; drawn := drawn st + List.length vs;
         sent := sent st ++ [SavedReport r] |} in
    match save_report ienv r with
    | Ok uid =>
        (answer ienv (search_answer ienv rs uid),
         add_sent (Answered (search_answer ienv rs uid)) st1)
    | Raise e => (Raise e, st1)
    end.
Proof.
  unfold Inline.search_text. intros Hq Hp.
  unfold Inline.inline_query. rewrite decide_False by done.
  run_MI. simpl. rewrite Hp. simpl.
  unfold inline_query_video_from_media. simpl.
  unfold search_report. simpl.
  destruct (is_history_enabled (env ienv) (update u)); simpl;
    by destruct (save_report ienv _).
Qed.

Lemma inline_query_context u st medias :
  search_text u ≠ "" →
  Parser_parse (env ienv) [search_text u] = Ok medias →
  let c := ctx (inline_query u st).2 in
  temp_history c
  = (if is_history_enabled (env ienv) (update u)
     then remember (temp_history (ctx st))
            (zip (videos_of medias)
               (results_for (drawn st) (videos_of medias)))
     else temp_history (ctx st))
  ∧ history c = history (ctx st)
  ∧ tg_video_cache c = tg_video_cache (ctx st)
  ∧ calls c = calls (ctx st) ++ [CallParse [search_text u]].
Proof.
  intros Hq Hp. destruct medias as [|m medias].
  - rewrite (inline_query_nothing u st Hq Hp). simpl.
    destruct (save_report ienv _); simpl;
      by destruct (is_history_enabled (env ienv) (update u)).
  - rewrite (inline_query_found u st m medias Hq Hp). simpl.
    destruct (save_report ienv _); simpl;
      by destruct (is_history_enabled (env ienv) (update u)).
Qed.

Lemma video_url_results_for d vs :
  video_url <$> results_for d vs = url <$> vs.
Proof.
  apply list_eq. intros i.
  rewrite !list_lookup_fmap, results_for_lookup.
  by destruct (vs !! i).
Qed.

Lemma videos_of_sublist medias :
  MVideo <$> videos_of medias `sublist_of` medias.
Proof.
  unfold videos_of. induction medias as [|m medias IH]; [done|].
  destruct m; simpl.
  - by apply sublist_skip.
  - by apply sublist_cons.
  - by apply sublist_cons.
Qed.

(** X15: [inline_query_video_from_media] gives one result for each Video
    among the medias and none for any other media, in the order of the
    medias, each under an identifier of its own draw and with the url
    and mime type of its Video; the thumbnail falls back to the url of
    the video, so it is empty only if that url is. *)
Theorem results_follow_videos medias st :
  ∃ rs,
    inline_query_video_from_media ienv medias st
    = (Ok rs,
       {| ctx := ctx st;
          drawn := drawn st + List.length (videos_of medias);
          sent := sent st |})
    ∧ List.length rs = List.length (videos_of medias)
    ∧ MVideo <$> videos_of medias `sublist_of` medias
    ∧ (∀ v, v ∈ videos_of medias ↔ MVideo v ∈ medias)
    ∧ (∀ i x, rs !! i = Some x →
         ∃ v, videos_of medias !! i = Some v
           ∧ id x = uuid4 ienv (drawn st + i)
           ∧ video_url x = url v
           ∧ r_mime_type x = mime_type v
           ∧ (url v ≠ "" → r_thumbnail_url x ≠ "")).
Proof.
  exists (results_for (drawn st) (videos_of medias)).
  split; [reflexivity|]. split; [apply results_for_length|].
  split; [apply videos_of_sublist|].
  split; [intros v; apply elem_of_videos_of|].
  intros i x Hx. rewrite results_for_lookup in Hx.
  destruct (videos_of medias !! i) as [v|]; [|done].
  injection Hx as <-. exists v. simpl. repeat split.
  intros Hne. unfold truthy. destruct (thumbnail_url v) as [t|]; [|done].
  by destruct (decide (t = "")).
Qed.

(** X16: an empty query (none, or blank once stripped) is answered under
    the parameter [help] with no result, whatever the history holds: its
    entries are the dictionaries recorded by [chosen_inline_query], and
    the handler keeps Video objects only. Nothing is parsed, no report is
    saved, no identifier is drawn and the context is left as it was. *)
Theorem empty_query_gets_empty_answer u st :
  search_text u = "" →
  ∃ a, inline_query u st
       = (answer ienv a,
          {| ctx := ctx st;
             drawn := drawn st + 0;
             sent := sent st ++ [Answered a] |})
    ∧ results a = []
    ∧ switch_pm_parameter a = "help"
    ∧ switch_pm_text a = gettext (env ienv) "Recently added".
Proof.
  intros Hq. rewrite (inline_query_empty u st Hq).
  eexists. split; [reflexivity|]. done.
Qed.

(** X17: every search that the registry resolves, to nothing or to
    something, saves one report before it answers: of type
    [MEDIA_NOT_FOUND] when nothing was resolved and [WRONG_MEDIA]
    otherwise, even when no Video is among the medias and the answer is
    empty. The answer carries the id of the report, and is not sent when
    the report cannot be saved. *)
Theorem every_search_leaves_a_report u st medias :
  search_text u ≠ "" →
  Parser_parse (env ienv) [search_text u] = Ok medias →
  let r := search_report (search_text u) medias in
  let rs := results_for (drawn st) (videos_of medias) in
  (∀ uid, save_report ienv r = Ok uid →
     (inline_query u st).1 = answer ienv (search_answer ienv rs uid)
     ∧ sent (inline_query u st).2
       = sent st ++ [SavedReport r; Answered (search_answer ienv rs uid)])
  ∧ (∀ e, save_report ienv r = Raise e →
       (inline_query u st).1 = Raise e
       ∧ sent (inline_query u st).2 = sent st ++ [SavedReport r])
  ∧ (videos_of medias = [] →
       ∀ uid, switch_pm_text (search_answer ienv rs uid) = not_found_text ienv
              ∧ results (search_answer ienv rs uid) = []).
Proof.
  intros Hq Hp r rs. split; [|split].
  - intros uid Hs. destruct medias as [|m medias].
    + rewrite (inline_query_nothing u st Hq Hp). simpl.
      fold r. rewrite Hs. simpl. by rewrite <- app_assoc.
    + rewrite (inline_query_found u st m medias Hq Hp). simpl.
      fold r. rewrite Hs. simpl. by rewrite <- app_assoc.
  - intros e Hs. destruct medias as [|m medias].
    + rewrite (inline_query_nothing u st Hq Hp). simpl.
      fold r. by rewrite Hs.
    + rewrite (inline_query_found u st m medias Hq Hp). simpl.
      fold r. by rewrite Hs.
  - intros Hv uid. unfold rs. rewrite Hv. done.
Qed.

(** X18: with the history enabled and the identifiers drawn distinct, a
    search leaves each of its results in the temporary history, under
    its identifier, with the Video it was built from; entries under
    other keys stay. With the history disabled the temporary history is
    left as it was. This holds whether or not the report and the answer
    go through. *)
Theorem results_are_remembered u st medias :
  search_text u ≠ "" →
  Parser_parse (env ienv) [search_text u] = Ok medias →
  let t := temp_history (ctx (inline_query u st).2) in
  (is_history_enabled (env ienv) (update u) = false →
     t = temp_history (ctx st))
  ∧ (is_history_enabled (env ienv) (update u) = true →
     (fresh_ids ienv (drawn st) (List.length (videos_of medias)) →
      ∀ i v, videos_of medias !! i = Some v →
        t !! uuid4 ienv (drawn st + i) = Some v)
     ∧ (∀ k,
          (∀ i, (i < List.length (videos_of medias))%nat →
             uuid4 ienv (drawn st + i) ≠ k) →
          t !! k = temp_history (ctx st) !! k)).
Proof.
  intros Hq Hp t.
  destruct (inline_query_context u st medias Hq Hp) as (Ht & _).
  fold t in Ht. split.
  - intros He. by rewrite Ht, He.
  - intros He. rewrite Ht, He. split.
    + intros Hfresh i v Hv.
      pose (p := (v, content ienv (uuid4 ienv (drawn st + i)) v)).
      change (uuid4 ienv (drawn st + i)) with (id p.2).
      change (Some v) with (Some p.1).
      apply (remember_lookup _ _ i).
      * rewrite zip_results_lookup, Hv. done.
      * intros j q Hj Heq. rewrite zip_results_lookup in Hj.
        destruct (videos_of medias !! j) as [w|] eqn:Hw; [|done].
        injection Hj as <-. simpl in Heq. symmetry.
        apply Hfresh; [by eapply lookup_lt_Some..|done].
    + intros k Hk. apply remember_notin.
      intros q Hq'. apply list_elem_of_lookup in Hq' as [j Hj].
      rewrite zip_results_lookup in Hj.
      destruct (videos_of medias !! j) as [w|] eqn:Hw; [|done].
      injection Hj as <-. simpl. apply Hk. by eapply lookup_lt_Some.
Qed.

(** X19: a search followed by the choice of one of its results: with the
    history enabled and the identifiers distinct, the Video behind the
    chosen result is the one that enters the history, at its end, unless
    it is there already. *)
Theorem chosen_result_is_recorded u st medias i v chosen :
  search_text u ≠ "" →
  Parser_parse (env ienv) [search_text u] = Ok medias →
  is_history_enabled (env ienv) (update u) = true →
  is_history_enabled (env ienv) chosen = true →
  fresh_ids ienv (drawn st) (List.length (videos_of medias)) →
  videos_of medias !! i = Some v →
  result_id chosen = uuid4 ienv (drawn st + i) →
  let c := ctx (inline_query u st).2 in
  history (chosen_inline_query (env ienv) chosen c).2
  = (if decide (v ∈ history (ctx st)) then history (ctx st)
     else history (ctx st) ++ [v])
  ∧ MVideo v ∈ medias.
Proof.
  intros Hq Hp He He' Hfresh Hv Hid c.
  destruct (inline_query_context u st medias Hq Hp) as (Ht & Hh & _).
  fold c in Ht, Hh. split.
  - rewrite (MainFacts.chosen_inline_query_records (env ienv) chosen c v);
      [by rewrite Hh| |done].
    rewrite Hid, Ht, He.
    pose (p := (v, content ienv (uuid4 ienv (drawn st + i)) v)).
    change (uuid4 ienv (drawn st + i)) with (id p.2).
    change (Some v) with (Some p.1).
    apply (remember_lookup _ _ i).
    + rewrite zip_results_lookup, Hv. done.
    + intros j q Hj Heq. rewrite zip_results_lookup in Hj.
      destruct (videos_of medias !! j) as [w|] eqn:Hw; [|done].
      injection Hj as <-. simpl in Heq. symmetry.
      apply Hfresh; [by eapply lookup_lt_Some..|done].
  - apply elem_of_videos_of. by eapply list_elem_of_lookup_2.
Qed.

End Handlers.

Lemma sample_ids_fresh : fresh_ids (sample_ienv found_medias) 0 2.
Proof.
  intros i j Hi Hj Heq.
  destruct i as [|[|i]]; destruct j as [|[|j]]; try lia; try done.
Qed.

Lemma results_follow_videos_witness :
  ∃ rs,
    inline_query_video_from_media (sample_ienv found_medias) found_medias
      empty_istate
    = (Ok rs, {| ctx := empty_state; drawn := 2; sent := [] |})
    ∧ List.length rs = 2%nat.
Proof.
  destruct (results_follow_videos (sample_ienv found_medias) found_medias
              empty_istate) as (rs & Hr & Hl & _).
  exists rs. split; [exact Hr|exact Hl].
Defined.

Lemma empty_query_gets_empty_answer_witness :
  ∃ a, inline_query (sample_ienv []) (sample_inline_update "")
         recorded_istate
       = (answer (sample_ienv []) a,
          {| ctx := ctx recorded_istate; drawn := 0 + 0;
             sent := [] ++ [Answered a] |})
    ∧ results a = []
    ∧ switch_pm_parameter a = "help"
    ∧ switch_pm_text a = "Recently added".
Proof.
  apply (empty_query_gets_empty_answer (sample_ienv [])
           (sample_inline_update "") recorded_istate).
  reflexivity.
Defined.

Lemma every_search_leaves_a_report_witness :
  sent (inline_query (sample_ienv found_medias) sample_search empty_istate).2
  = [] ++ [SavedReport
             (search_report "youtu.be/TCrP1SE2DkY" found_medias);
           Answered
             (search_answer (sample_ienv found_medias)
                (results_for (sample_ienv found_medias) 0
                   (videos_of found_medias)) "42")].
Proof.
  apply (proj1 (every_search_leaves_a_report (sample_ienv found_medias)
                  sample_search empty_istate found_medias
                  ltac:(discriminate) eq_refl) "42").
  reflexivity.
Defined.

Lemma results_are_remembered_witness :
  temp_history
    (ctx (inline_query (sample_ienv found_medias) sample_search
            empty_istate).2) !! "uuid-1"
  = Some other_media.
Proof.
  apply (proj1 (proj2 (results_are_remembered (sample_ienv found_medias)
                         sample_search empty_istate found_medias
                         ltac:(discriminate) eq_refl) eq_refl)
           sample_ids_fresh 1%nat other_media).
  reflexivity.
Defined.

Lemma chosen_result_is_recorded_witness :
  history
    (chosen_inline_query (env (sample_ienv found_medias)) chosen_second
       (ctx (inline_query (sample_ienv found_medias) sample_search
               empty_istate).2)).2
  = (if decide (other_media ∈ history (ctx empty_istate))
     then history (ctx empty_istate)
     else history (ctx empty_istate) ++ [other_media])
  ∧ MVideo other_media ∈ found_medias.
Proof.
  apply (chosen_result_is_recorded (sample_ienv found_medias) sample_search
           empty_istate found_medias 1 other_media chosen_second);
    try reflexivity.
  - discriminate.
  - exact sample_ids_fresh.
Defined.

End InlineFacts.

(** * From the link to the delivery *)
Module PipelineEdges.
Import Re Pytube Youtube.
Local Open Scope list_scope.

Section Pipeline.

Variable TG_FILE_LIMIT : Z.
Variable pytube_YouTube : string → result YouTube.
Variable env : Main.Env.

Local Abbreviation produces := (produces TG_FILE_LIMIT pytube_YouTube).
Local Abbreviation _parse := (_parse TG_FILE_LIMIT pytube_YouTube).

(** X20: the note about the original video is added to the caption of a
    Video from [_parse] only when the stream delivered is a candidate
    within the ceiling whose url is not that of the highest-resolution
    stream. *)
Theorem note_only_on_degraded_delivery m q v :
  produces m q v →
  Main.extra_caption env v ≠ "" →
  ∃ s best,
    delivery_stream TG_FILE_LIMIT q = Some s
    ∧ get_highest_resolution q = Some best
    ∧ Medias.url v = url s
    ∧ url s ≠ url best
    ∧ s ∈ candidates q
    ∧ deliverable TG_FILE_LIMIT s.
Proof.
  intros Hp Hnote.
  destruct (YoutubeFacts.produces_inv _ _ _ _ _ Hp)
    as (best & Hb & Hd & Hu & Hm).
  assert (Hne : Medias.url v ≠ url best).
  { intros Heq. apply Hnote. unfold Main.extra_caption. rewrite Hm.
    rewrite bool_decide_false; [done|]. intros [_ Hne]. by rewrite Heq in Hne. }
  exists (select_stream TG_FILE_LIMIT (candidates q) best), best.
  split; [done|]. split; [done|]. split; [done|].
  split; [by rewrite <- Hu|].
  destruct (decide (Exists (deliverable TG_FILE_LIMIT) (candidates q)))
    as [Hex|Hno].
  - apply Exists_exists in Hex.
    destruct (YoutubeFacts.select_stream_split TG_FILE_LIMIT
                (candidates q) best Hex) as (l1 & l2 & Hl & Hdel & _).
    split; [|done]. rewrite Hl at 2. apply YoutubeFacts.elem_of_middle.
  - exfalso. apply Hne. rewrite Hu.
    rewrite (YoutubeFacts.select_stream_none TG_FILE_LIMIT _ best); [done|].
    intros c Hc Hdc. apply Hno. apply Exists_exists. by exists c.
Qed.

End Pipeline.

Lemma note_only_on_degraded_delivery_witness :
  ∃ s best,
    delivery_stream twenty_MB three_sizes = Some s
    ∧ get_highest_resolution three_sizes = Some best
    ∧ "https://cdn/360" = url s
    ∧ url s ≠ url best
    ∧ s ∈ candidates three_sizes
    ∧ deliverable twenty_MB s.
Proof.
  apply (note_only_on_degraded_delivery twenty_MB
           (fun _ => Ok (video_of three_sizes)) (Main.sample_env true [])
           short_link_match three_sizes
           (sample_video "https://cdn/360" "https://cdn/720")).
  - by apply YoutubeFacts.produces_sample.
  - discriminate.
Defined.

(** X21: two links to the same video, of whatever accepted shapes,
    parsed at different times, with whatever pytube then reports for the
    video (streams, author, title) and under whatever ceiling, give
    Videos with one original url; so once the first is delivered, the
    second, different as it may be, is sent by the handle kept in the
    cache. *)
Theorem same_video_shares_cache_entry
    limit1 limit2 pytube1 pytube2 env
    m1 m2 medias1 medias2 v1 v2 yt_id update st res h update' m' :
  group m1 "id" = Ok yt_id → group m2 "id" = Ok yt_id →
  Youtube._parse limit1 pytube1 m1 = Ok medias1 →
  Medias.MVideo v1 ∈ medias1 →
  Youtube._parse limit2 pytube2 m2 = Ok medias2 →
  Medias.MVideo v2 ∈ medias2 →
  Main.delivery env update v1 st = Ok res → Main.video res = Some h →
  Main.effective_message update' = Some m' →
  Medias.original_url v1 = Medias.original_url v2
  ∧ ∃ rest,
      Main.calls
        (Main._process_video env update' v2
           (Main._process_video env update v1 st).2).2
      = Main.calls (Main._process_video env update v1 st).2
        ++ Main.CallReplyVideo (Main.ByHandle h)
             (Main.media_caption env v2) :: rest.
Proof.
  intros Hg1 Hg2 Hp1 Hin1 Hp2 Hin2 Hd Hv Hm'.
  destruct (YoutubeFacts.parse_inv _ _ m1 medias1 v1 Hp1 Hin1)
    as (id1 & _ & _ & _ & Hid1 & _ & _ & _ & _ & _ & _ & _ & Ho1).
  destruct (YoutubeFacts.parse_inv _ _ m2 medias2 v2 Hp2 Hin2)
    as (id2 & _ & _ & _ & Hid2 & _ & _ & _ & _ & _ & _ & _ & Ho2).
  rewrite Hg1 in Hid1. injection Hid1 as <-.
  rewrite Hg2 in Hid2. injection Hid2 as <-.
  assert (Ho : Medias.original_url v1 = Medias.original_url v2)
    by (by rewrite Ho1, Ho2).
  split; [done|].
  destruct (HandlerEdges.process_video_first_call env update' v2
              (Main._process_video env update v1 st).2 m' Hm') as [rest Hc].
  exists rest. rewrite Hc. unfold MainTexts.video_call.
  rewrite (MainFacts.process_video_success _ _ _ _ _ _ Hd Hv). simpl.
  by rewrite <- Ho, lookup_insert_eq.
Qed.

(** X21, at a video first asked for by its short link, when it had three
    streams and a 20 MB ceiling picked the 360p one, then by its shorts
    link, when it had one stream: two different Videos, one cache key. *)
Lemma same_video_shares_cache_entry_witness :
  sample_video "https://cdn/360" "https://cdn/720"
  ≠ sample_video "https://cdn/720" "https://cdn/720"
  ∧ Medias.original_url (sample_video "https://cdn/360" "https://cdn/720")
    = Medias.original_url (sample_video "https://cdn/720" "https://cdn/720")
  ∧ ∃ rest,
      Main.calls
        (Main._process_video (Main.sample_env true []) Main.sample_update
           (sample_video "https://cdn/720" "https://cdn/720")
           (Main._process_video (Main.sample_env true []) Main.sample_update
              (sample_video "https://cdn/360" "https://cdn/720")
              Main.empty_state).2).2
      = Main.calls
          (Main._process_video (Main.sample_env true []) Main.sample_update
             (sample_video "https://cdn/360" "https://cdn/720")
             Main.empty_state).2
        ++ Main.CallReplyVideo (Main.ByHandle Main.sample_handle)
             (Main.media_caption (Main.sample_env true [])
                (sample_video "https://cdn/720" "https://cdn/720")) :: rest.
Proof.
  split; [discriminate|].
  apply (same_video_shares_cache_entry twenty_MB 9500000
           (fun _ => Ok (video_of three_sizes))
           (fun _ => Ok (video_of one_stream))
           (Main.sample_env true [])
           short_link_match
           {| m_group0 := "youtube.com/shorts/TCrP1SE2DkY";
              m_groups := [("id", "TCrP1SE2DkY")] |}
           [Medias.MVideo (sample_video "https://cdn/360" "https://cdn/720")]
           [Medias.MVideo (sample_video "https://cdn/720" "https://cdn/720")]
           (sample_video "https://cdn/360" "https://cdn/720")
           (sample_video "https://cdn/720" "https://cdn/720")
           "TCrP1SE2DkY" Main.sample_update Main.empty_state
           Main.sent_message Main.sample_handle Main.sample_update
           Main.sample_message); try reflexivity;
    apply list_elem_of_singleton; reflexivity.
Defined.

End PipelineEdges.
